(** * The quiz wizard of focus-founders: state machine, scoring, persistence

    A shallow embedding of [src/app/quiz/page.tsx] (the [Quiz] component and
    its click handlers) and [src/lib/quiz/growth-stages.ts].

    Conventions of the embedding.
    - A point value is an integer-valued binary64 number, written as the
      [Z] it equals.  A sum of such numbers is the binary64 sum: the exact
      integer rounded to 53 significant bits (ties to even), or an infinity;
      it prints as [Number.prototype.toString] prints it.  On safe integers
      (at most 2^53 - 1 in absolute value) both are the exact sum and its
      decimal digits.  The question index is [nat] (it starts at 0 and is
      only incremented, or decremented under the guard [> 0]).
    - A JavaScript array is a list of slots; a slot is a hole, [undefined] or
      a number, so that writing past the end extends the array as JavaScript
      does.
    - The React state of the component is a record; a handler reads the
      values captured by the render it belongs to and queues [setX] calls,
      which is written as a state transformer over the world (component
      state, Web Storage, effect log).
    - [localStorage.setItem] is taken to succeed (the source has no handler
      for a storage exception).
    - [router.push] is an effect in the log.  The component stays mounted
      after it (the source sets no flag and returns from no handler early),
      so a click after the push runs its handler like any other click. *)

From Stdlib Require Import ZArith QArith Qabs Floats.
From stdpp Require Import gmap strings list pretty.

Local Open Scope Z_scope.
Local Open Scope string_scope.
Local Open Scope list_scope.

(** ** JavaScript values used by the component *)

Module Js.

(** A slot of a [number[]] at run time. *)
Inductive Elem :=
| hole
| undefined
| number (n : Z).

#[global] Instance Elem_eq_dec : EqDecision Elem.
Proof. solve_decision. Defined.

(** The result of arithmetic on slots: an integer-valued number, [NaN] or
    an infinity with its sign. *)
Inductive Number :=
| Int (z : Z)
| NaN
| Infinity (negative : bool).

#[global] Instance Number_eq_dec : EqDecision Number.
Proof. solve_decision. Defined.

(** [a[i]] as an expression: a hole and an index out of range read as
    [undefined]. *)
Definition get (a : list Elem) (i : nat) : Elem :=
  match a !! i with
  | Some (number n) => number n
  | _ => undefined
  end.

(** [[...a]]: the iterator reads every index, so holes become
    [undefined]. *)
Definition spread (a : list Elem) : list Elem :=
  (λ e, match e with hole => undefined | _ => e end) <$> a.

(** [a[i] = v]: in range the slot is overwritten, past the end the array
    grows and the slots in between are holes. *)
Definition assign (a : list Elem) (i : nat) (v : Elem) : list Elem :=
  if decide (i < length a)%nat
  then <[i := v]> a
  else a ++ replicate (i - length a) hole ++ [v].

(** [Number.MAX_SAFE_INTEGER], and the integers every one of which is a
    binary64 number next to its neighbours. *)
Definition MAX_SAFE_INTEGER : Z := 2 ^ 53 - 1.

Definition safeInteger (z : Z) : Prop :=
  (- MAX_SAFE_INTEGER ≤ z ≤ MAX_SAFE_INTEGER)%Z.

#[global] Instance safeInteger_dec z : Decision (safeInteger z).
Proof. unfold safeInteger. apply _. Defined.

(** The binary64 number nearest to the integer [z]: [z] itself below 2^53;
    above, the 53 leading bits rounded to nearest, ties to even; an
    infinity from 2^1024 on. *)
Definition roundDouble (z : Z) : Number :=
  let m := Z.abs z in
  if decide (m < 2 ^ 53)%Z then Int z
  else
    let e := Z.log2 m - 52 in
    let q := m / 2 ^ e in
    let r := m mod 2 ^ e in
    let q' :=
      if decide ((2 ^ e < 2 * r)%Z ∨ (2 * r = 2 ^ e ∧ Z.odd q = true))
      then q + 1 else q in
    let v := q' * 2 ^ e in
    if decide (2 ^ 1024 ≤ v)%Z then Infinity (bool_decide (z < 0)%Z)
    else Int (Z.sgn z * v).

(** [sum + score] for a [sum] that is a number: the binary64 sum of two
    integer-valued numbers is their exact sum rounded; [undefined] makes
    [NaN]. *)
Definition add (sum : Number) (score : Elem) : Number :=
  match sum, score with
  | Int s, number n => roundDouble (s + n)
  | Infinity negative, number _ => Infinity negative
  | _, _ => NaN
  end.

(** [a.reduce((sum, score) => sum + score, 0)]: [reduce] skips holes. *)
Definition reduce_sum (a : list Elem) : Number :=
  foldl (λ sum score, match score with hole => sum | _ => add sum score end)
        (Int 0) a.

(** The digit strings of [k] digits that [Number::toString] may print
    for the number [m] with the decimal point after [n] digits: the [s] with
    10^(k-1) <= s < 10^k whose value s * 10^(n-k) is a decimal that reads
    back as [m]. *)
Definition candidates (m : Z) (k n : nat) : list (Z * nat) :=
  if decide (n < k)%nat then []
  else
    let p := 10 ^ Z.of_nat (n - k) in
    List.filter
      (λ sn, bool_decide ((10 ^ (Z.of_nat k - 1) ≤ sn.1 < 10 ^ Z.of_nat k)%Z
                          ∧ roundDouble (sn.1 * p) = Int m))
      [(m / p, n); (m / p + 1, n)].

(** Of two candidates the one nearer to [m]; of two equally near ones the
    even one. *)
Definition closer (m : Z) (k : nat) (a b : Z * nat) : Z * nat :=
  let dist (sn : Z * nat) := Z.abs (sn.1 * 10 ^ Z.of_nat (sn.2 - k) - m) in
  if decide ((dist b < dist a)%Z
             ∨ (dist b = dist a ∧ Z.even b.1 = true ∧ Z.even a.1 = false))
  then b else a.

(** The shortest digit string: the least [k] of [ks] that has a
    candidate, for a number of [d] decimal digits. *)
Fixpoint shortest (m : Z) (d : nat) (ks : list nat) : option (Z * nat * nat) :=
  match ks with
  | [] => None
  | k :: ks' =>
      match candidates m k d ++ candidates m k (S d) with
      | [] => shortest m d ks'
      | c :: cs => Some (foldl (closer m k) c cs, k)
      end
  end.

Fixpoint zeros (n : nat) : string :=
  match n with
  | O => EmptyString
  | S n' => String (Ascii.ascii_of_nat 48) (zeros n')
  end.

(** [Number::toString] of a positive integer-valued number: all its
    digits when it is a safe integer; otherwise the shortest digits that
    read back as the number, followed by zeros up to 21 digits and in
    exponent notation beyond. *)
Definition toStringPositive (m : Z) : string :=
  if decide (safeInteger m) then pretty m
  else
    let d := String.length (pretty m) in
    match shortest m d (seq 1 d) with
    | Some (s, n, k) =>
        if decide (n ≤ 21)%nat then pretty s +:+ zeros (n - k)
        else
          match pretty s with
          | String c rest =>
              String c (if decide (k = 1)%nat then "" else "." +:+ rest)
              +:+ "e+" +:+ pretty (n - 1)%nat
          | EmptyString => EmptyString
          end
    | None => pretty m
    end.

(** [n.toString()]. *)
Definition toString (n : Number) : string :=
  match n with
  | Int z =>
      if decide (z < 0)%Z then "-" +:+ toStringPositive (- z)
      else toStringPositive z
  | NaN => "NaN"
  | Infinity negative => if negative then "-Infinity" else "Infinity"
  end.

Definition dquote : string := String (Ascii.ascii_of_nat 34) EmptyString.
Definition backslash : string := String (Ascii.ascii_of_nat 92) EmptyString.

Definition hex_digit (n : nat) : string :=
  String (Ascii.ascii_of_nat (if decide (n < 10)%nat then 48 + n else 87 + n))
         EmptyString.

(** The escape of one character inside a JSON string. *)
Definition escape_char (c : Ascii.ascii) : string :=
  let n := Ascii.nat_of_ascii c in
  if decide (n = 34)%nat then backslash +:+ dquote
  else if decide (n = 92)%nat then backslash +:+ backslash
  else if decide (n = 8)%nat then backslash +:+ "b"
  else if decide (n = 9)%nat then backslash +:+ "t"
  else if decide (n = 10)%nat then backslash +:+ "n"
  else if decide (n = 12)%nat then backslash +:+ "f"
  else if decide (n = 13)%nat then backslash +:+ "r"
  else if decide (n < 32)%nat
       then backslash +:+ "u00" +:+ hex_digit (n / 16) +:+ hex_digit (n mod 16)
  else String c EmptyString.

Fixpoint escape (s : string) : string :=
  match s with
  | EmptyString => EmptyString
  | String c s' => escape_char c +:+ escape s'
  end.

(** [JSON.stringify] of a string, and of a string or [null]. *)
Definition stringify_string (s : string) : string :=
  dquote +:+ escape s +:+ dquote.

Definition stringify_nullable (s : option string) : string :=
  match s with
  | Some s => stringify_string s
  | None => "null"
  end.

(** [JSON.stringify] of an array slot: a finite number prints as
    [toString] prints it, holes and [undefined] print as [null]. *)
Definition stringify_elem (e : Elem) : string :=
  match e with
  | number n => toString (Int n)
  | _ => "null"
  end.

(** [JSON.stringify] of a [number[]]. *)
Definition stringify_array (a : list Elem) : string :=
  "[" +:+ String.concat "," (stringify_elem <$> a) +:+ "]".

End Js.

(** ** The browser around the component *)

(** The two Web Storage areas of a page.  Entries of [sessionStorage] end
    with the browsing session, entries of [localStorage] do not. *)
Inductive StorageArea :=
| LocalStorage
| SessionStorage.

#[global] Instance StorageArea_eq_dec : EqDecision StorageArea.
Proof. solve_decision. Defined.

(** What a handler does to the outside, in program order. *)
Inductive Effect :=
| SetItem (area : StorageArea) (key value : string)
| RemoveItem (area : StorageArea) (key : string)
| RouterPush (route : string).

#[global] Instance Effect_eq_dec : EqDecision Effect.
Proof. solve_decision. Defined.

Definition isRouterPush (e : Effect) : bool :=
  match e with RouterPush _ => true | _ => false end.

(** A write of [key] in either storage area. *)
Definition isSetItemOf (key : string) (e : Effect) : bool :=
  match e with SetItem _ k _ => bool_decide (k = key) | _ => false end.

(** ** Catalog and question records *)

Definition BusinessType := string.
Definition GrowthStage := string.

Record BusinessTypeConfig := {
  bt_id : BusinessType;
  bt_name : string;
  bt_emoji : string;
  bt_description : string;
  bt_examples : list string
}.

Record GrowthStageConfig := {
  gs_id : GrowthStage;
  gs_name : string;
  gs_emoji : string;
  gs_description : string;
  gs_revenue : string
}.

(** [growthStages] of [growth-stages.ts]. *)
Definition growthStages : list GrowthStageConfig := [
  {| gs_id := "startup";
     gs_name := "Starting Up";
     gs_emoji := "🌱";
     gs_description := "You're in the early stages, building your foundation and finding your first customers.";
     gs_revenue := "$0 - $1K/month" |};
  {| gs_id := "growing";
     gs_name := "Growing";
     gs_emoji := "📈";
     gs_description := "You have some traction but need systems and consistency to scale further.";
     gs_revenue := "$1K - $5K/month" |};
  {| gs_id := "scaling";
     gs_name := "Scaling";
     gs_emoji := "⭐";
     gs_description := "You're established and ready to optimize, delegate, and scale to the next level.";
     gs_revenue := "$5K+/month" |}
].

Record QuizOption := {
  text : string;
  points : Z
}.

Record Question := {
  question : string;
  options : list QuizOption
}.

(** ** The state of the [Quiz] component and of the page *)

Inductive Step :=
| intro
| business_type
| growth_stage
| questions.

#[global] Instance Step_eq_dec : EqDecision Step.
Proof. solve_decision. Defined.

(** The five [useState] cells. *)
Record Component := {
  step : Step;
  selectedBusinessType : option BusinessType;
  selectedGrowthStage : option GrowthStage;
  currentQuestionIndex : nat;
  answers : list Js.Elem
}.

Record World := {
  component : Component;
  localStorage : gmap string string;
  sessionStorage : gmap string string;
  log : list Effect
}.

(** The values of the [useState] calls at mount. *)
Definition initialComponent : Component := {|
  step := intro;
  selectedBusinessType := None;
  selectedGrowthStage := None;
  currentQuestionIndex := 0;
  answers := []
|}.

(** The page mounted in a browser whose storage holds [ls] and [ss]. *)
Definition mount (ls ss : gmap string string) : World := {|
  component := initialComponent;
  localStorage := ls;
  sessionStorage := ss;
  log := []
|}.

(** The page as the next browsing session mounts it: the entries of
    [sessionStorage] ended with the session, those of [localStorage] are
    still there. *)
Definition endSession (w : World) : World :=
  mount (localStorage w) ∅.

(** ** Actions of a handler *)

Definition Action := World → World.

Definition seq (a b : Action) : Action := λ w, b (a w).

#[local] Infix ">>" := seq (at level 61, left associativity).

Definition onComponent (f : Component → Component) : Action :=
  λ w, {| component := f (component w);
          localStorage := localStorage w;
          sessionStorage := sessionStorage w;
          log := log w |}.

Definition setStep (s : Step) : Action :=
  onComponent (λ c, {| step := s;
                       selectedBusinessType := selectedBusinessType c;
                       selectedGrowthStage := selectedGrowthStage c;
                       currentQuestionIndex := currentQuestionIndex c;
                       answers := answers c |}).

Definition setSelectedBusinessType (b : option BusinessType) : Action :=
  onComponent (λ c, {| step := step c;
                       selectedBusinessType := b;
                       selectedGrowthStage := selectedGrowthStage c;
                       currentQuestionIndex := currentQuestionIndex c;
                       answers := answers c |}).

Definition setSelectedGrowthStage (g : option GrowthStage) : Action :=
  onComponent (λ c, {| step := step c;
                       selectedBusinessType := selectedBusinessType c;
                       selectedGrowthStage := g;
                       currentQuestionIndex := currentQuestionIndex c;
                       answers := answers c |}).

Definition setCurrentQuestionIndex (i : nat) : Action :=
  onComponent (λ c, {| step := step c;
                       selectedBusinessType := selectedBusinessType c;
                       selectedGrowthStage := selectedGrowthStage c;
                       currentQuestionIndex := i;
                       answers := answers c |}).

Definition setAnswers (a : list Js.Elem) : Action :=
  onComponent (λ c, {| step := step c;
                       selectedBusinessType := selectedBusinessType c;
                       selectedGrowthStage := selectedGrowthStage c;
                       currentQuestionIndex := currentQuestionIndex c;
                       answers := a |}).

Definition localStorage_setItem (key value : string) : Action :=
  λ w, {| component := component w;
          localStorage := <[key := value]> (localStorage w);
          sessionStorage := sessionStorage w;
          log := log w ++ [SetItem LocalStorage key value] |}.

Definition localStorage_removeItem (key : string) : Action :=
  λ w, {| component := component w;
          localStorage := delete key (localStorage w);
          sessionStorage := sessionStorage w;
          log := log w ++ [RemoveItem LocalStorage key] |}.

Definition router_push (route : string) : Action :=
  λ w, {| component := component w;
          localStorage := localStorage w;
          sessionStorage := sessionStorage w;
          log := log w ++ [RouterPush route] |}.

(** [JSON.stringify({ businessType: b, growthStage: g })]. *)
Definition stringify_path (b : option BusinessType) (g : GrowthStage) : string :=
  "{" +:+ Js.stringify_string "businessType" +:+ ":" +:+ Js.stringify_nullable b
      +:+ "," +:+ Js.stringify_string "growthStage" +:+ ":" +:+ Js.stringify_string g
      +:+ "}".

(** ** The handlers of [Quiz]

    Each handler takes the component state [r] of the render that created
    it (its closure) and yields the action of one click. *)

Definition startQuiz : Action :=
  setStep business_type.

Definition selectBusinessType (businessType : BusinessType) : Action :=
  setSelectedBusinessType (Some businessType) >>
  setStep growth_stage.

Definition selectGrowthStage (r : Component) (growthStage : GrowthStage) : Action :=
  setSelectedGrowthStage (Some growthStage) >>
  localStorage_removeItem "focusFoundersQuizScore" >>
  localStorage_removeItem "focusFoundersQuizAnswers" >>
  localStorage_setItem "focusFoundersQuizPath"
    (stringify_path (selectedBusinessType r) growthStage) >>
  setCurrentQuestionIndex 0 >>
  setAnswers [] >>
  setStep questions.

(** The inline handler of the growth-stage screen's back link. *)
Definition backToBusinessType : Action :=
  setStep business_type.

(** [handleAnswer], for the [questions] array of the render. *)
Definition handleAnswer (r : Component) (qs : list Question) (pts : Z) : Action :=
  let newAnswers :=
    Js.assign (Js.spread (answers r)) (currentQuestionIndex r) (Js.number pts) in
  setAnswers newAnswers >>
  localStorage_setItem "focusFoundersQuizAnswers" (Js.stringify_array newAnswers) >>
  if decide (Z.of_nat (currentQuestionIndex r) < Z.of_nat (length qs) - 1)
  then setCurrentQuestionIndex (currentQuestionIndex r + 1)
  else
    let totalScore := Js.reduce_sum newAnswers in
    localStorage_setItem "focusFoundersQuizScore" (Js.toString totalScore) >>
    router_push "/quiz/results".

Definition goBack (r : Component) : Action :=
  if decide (0 < currentQuestionIndex r)%nat
  then setCurrentQuestionIndex (currentQuestionIndex r - 1)
  else setStep growth_stage.

(** [progress] of the questions render, in exact arithmetic:
    [((currentQuestionIndex + 1) / questions.length) * 100]. *)
Definition progress (i n : nat) : Q :=
  ((inject_Z (Z.of_nat i) + 1) / inject_Z (Z.of_nat n) * 100)%Q.

(** The same expression in binary64, as the engine evaluates it. *)
Definition float_of_nat (n : nat) : float :=
  PrimFloat.of_uint63 (Uint63.of_Z (Z.of_nat n)).

Definition progress_binary64 (i n : nat) : float :=
  ((float_of_nat i + 1) / float_of_nat n * 100)%float.

(** ** Rendering and clicking

    The catalog of business types and the question bank are the modules
    [business-types.ts] and [questions.ts]; the component is embedded over
    any catalog and any bank.  The non-null assertions of
    [getQuestionsForPath(selectedBusinessType!, selectedGrowthStage!)] are
    erased at run time, so the bank is applied to the cells as they are. *)

Section Wizard.

Variable businessTypes : list BusinessTypeConfig.
Variable getQuestionsForPath :
  option BusinessType → option GrowthStage → list Question.

(** [questions] of the questions render. *)
Definition questionsOf (c : Component) : list Question :=
  getQuestionsForPath (selectedBusinessType c) (selectedGrowthStage c).

(** What a render shows: the buttons of each screen. *)
Inductive View :=
| IntroView
| BusinessTypeView (choices : list BusinessType)
| GrowthStageView (choices : list GrowthStage)
| QuestionView (position total : nat) (bar : Q) (currentQuestion : Question).

(** The render of [Quiz].  In the questions step [currentQuestion] is
    [questions[currentQuestionIndex]]; reading [currentQuestion.question]
    of [undefined] throws, which is [None]. *)
Definition render (c : Component) : option View :=
  match step c with
  | intro => Some IntroView
  | business_type => Some (BusinessTypeView (bt_id <$> businessTypes))
  | growth_stage => Some (GrowthStageView (gs_id <$> growthStages))
  | questions =>
      let qs := questionsOf c in
      match qs !! currentQuestionIndex c with
      | Some currentQuestion =>
          Some (QuestionView (currentQuestionIndex c + 1) (length qs)
                  (progress (currentQuestionIndex c) (length qs))
                  currentQuestion)
      | None => None
      end
  end.

(** The clicks a visitor can make. *)
Inductive Event :=
| ClickStart
| ClickBusinessType (id : BusinessType)
| ClickGrowthStage (id : GrowthStage)
| ClickBackToBusinessType
| ClickOption (pts : Z)
| ClickPrevious.

(** The router was asked for another route. *)
Definition handedOff (w : World) : bool :=
  existsb isRouterPush (log w).

(** The handler behind a button of the view, if the view has the
    button. *)
Definition dispatch (c : Component) (v : View) (e : Event) : option Action :=
  match v, e with
  | IntroView, ClickStart => Some startQuiz
  | BusinessTypeView choices, ClickBusinessType id =>
      if decide (id ∈ choices) then Some (selectBusinessType id) else None
  | GrowthStageView choices, ClickGrowthStage id =>
      if decide (id ∈ choices) then Some (selectGrowthStage c id) else None
  | GrowthStageView _, ClickBackToBusinessType => Some backToBusinessType
  | QuestionView _ _ _ currentQuestion, ClickOption pts =>
      if decide (pts ∈ points <$> options currentQuestion)
      then Some (handleAnswer c (questionsOf c) pts)
      else None
  | QuestionView _ _ _ _, ClickPrevious => Some (goBack c)
  | _, _ => None
  end.

(** One click on the mounted page: the handler of the button, if the
    render shows the button. *)
Definition click (e : Event) (w : World) : option World :=
  v ← render (component w);
  a ← dispatch (component w) v e;
  Some (a w).

(** A sequence of clicks. *)
Fixpoint run (es : list Event) (w : World) : option World :=
  match es with
  | [] => Some w
  | e :: es' => click e w ≫= run es'
  end.

(** The worlds a visitor can bring a freshly mounted page to. *)
Definition reachable (w : World) : Prop :=
  ∃ ls ss es, run es (mount ls ss) = Some w.

End Wizard.

(** ** A small catalog and bank to evaluate the component on

    The path freelancer/startup has three questions, as in the scenario of
    the specification, the path freelancer/growing has five, every other
    path has none. *)

Definition sampleBusinessTypes : list BusinessTypeConfig := [
  {| bt_id := "freelancer"; bt_name := "Freelancer"; bt_emoji := "";
     bt_description := ""; bt_examples := [] |};
  {| bt_id := "agency"; bt_name := "Agency"; bt_emoji := "";
     bt_description := ""; bt_examples := [] |}
].

Definition sampleOptions : list QuizOption := [
  {| text := "Never"; points := 1 |};
  {| text := "Sometimes"; points := 2 |};
  {| text := "Often"; points := 3 |};
  {| text := "Always"; points := 4 |}
].

Definition sampleQuestion (prompt : string) : Question :=
  {| question := prompt; options := sampleOptions |}.

Definition sampleBank (b : option BusinessType) (g : option GrowthStage)
  : list Question :=
  if decide (b = Some "freelancer" ∧ g = Some "startup")
  then sampleQuestion <$> ["Q1"; "Q2"; "Q3"]
  else if decide (b = Some "freelancer" ∧ g = Some "growing")
  then sampleQuestion <$> ["Q1"; "Q2"; "Q3"; "Q4"; "Q5"]
  else [].

(** The clicks up to the first question of freelancer/startup, and the
    world they lead to from an empty browser. *)
Definition toFirstQuestion : list Event :=
  [ClickStart; ClickBusinessType "freelancer"; ClickGrowthStage "startup"].

Definition atFirstQuestion : World :=
  let w1 := selectBusinessType "freelancer" (startQuiz (mount ∅ ∅)) in
  selectGrowthStage (component w1) "startup" w1.

(** The whole scenario: the three questions answered with 2, 4 and 1. *)
Definition scenario : list Event :=
  toFirstQuestion ++ (ClickOption <$> [2; 4; 1]).

Definition afterScenario : World :=
  default (mount ∅ ∅)
          (run sampleBusinessTypes sampleBank scenario (mount ∅ ∅)).

(** The scenario, then one more click on an option of the last question,
    which is still shown. *)
Definition answeredAgain : list Event :=
  scenario ++ [ClickOption 3].

Definition afterAnsweredAgain : World :=
  default (mount ∅ ∅)
          (run sampleBusinessTypes sampleBank answeredAgain (mount ∅ ∅)).

(** Two answers, then back twice. *)
Definition backTwice : list Event :=
  toFirstQuestion ++ [ClickOption 2; ClickOption 4; ClickPrevious; ClickPrevious].

Definition afterBackTwice : World :=
  default (mount ∅ ∅)
          (run sampleBusinessTypes sampleBank backTwice (mount ∅ ∅)).

(** The third of the five questions of freelancer/growing. *)
Definition thirdOfFive : Component := {|
  step := questions;
  selectedBusinessType := Some "freelancer";
  selectedGrowthStage := Some "growing";
  currentQuestionIndex := 2;
  answers := [Js.number 1; Js.number 3]
|}.

(** The growth-stage screen of a freelancer. *)
Definition atGrowthStage : World :=
  selectBusinessType "freelancer" (startQuiz (mount ∅ ∅)).

(** The first question answered with 2. *)
Definition firstAnswered : list Event :=
  toFirstQuestion ++ [ClickOption 2].

Definition afterFirstAnswer : World :=
  default (mount ∅ ∅)
          (run sampleBusinessTypes sampleBank firstAnswered (mount ∅ ∅)).

(** A browser that already stores a setting of another page and the score
    of an earlier visit. *)
Definition usedStorage : gmap string string :=
  <["theme" := "dark"]> (<["focusFoundersQuizScore" := "12"]> ∅).

Definition afterScenarioUsed : World :=
  default (mount usedStorage ∅)
          (run sampleBusinessTypes sampleBank scenario (mount usedStorage ∅)).

(** The integer sum of a sequence of points. *)
Definition total (ps : list Z) : Z := foldr Z.add 0 ps.

(** ** Counters and invariants of a run *)

(** How often the score key was written, and how often the router was
    asked for another route. *)
Definition scoreWrites (l : list Effect) : nat :=
  length (List.filter (isSetItemOf "focusFoundersQuizScore") l).

Definition handOffs (l : list Effect) : nat :=
  length (List.filter isRouterPush l).

#[global] Arguments scoreWrites : simpl never.
#[global] Arguments handOffs : simpl never.

(** The storage area an effect writes to or removes from. *)
Definition areaOf (e : Effect) : option StorageArea :=
  match e with
  | SetItem a _ _ | RemoveItem a _ => Some a
  | RouterPush _ => None
  end.

Definition onLocalStorage (e : Effect) : Prop :=
  ∀ a, areaOf e = Some a → a = LocalStorage.

(** The question index is 0 outside the question sequence, and inside it
    is 0 or below the number of questions of the path. *)
Definition indexInv (bank : option BusinessType → option GrowthStage → list Question)
    (w : World) : Prop :=
  let c := component w in
  (step c ≠ questions → currentQuestionIndex c = 0%nat)
  ∧ (step c = questions →
     currentQuestionIndex c = 0%nat
     ∨ (currentQuestionIndex c < length (questionsOf bank c))%nat).

(** The question index is at most the length of the recorded-points list,
    which in the question sequence is at most the number of questions. *)
Definition answersInv (bank : option BusinessType → option GrowthStage → list Question)
    (w : World) : Prop :=
  let c := component w in
  (currentQuestionIndex c ≤ length (answers c))%nat
  ∧ (step c = questions →
     (length (answers c) ≤ length (questionsOf bank c))%nat).

(** The three effects of the answer at the last question index, for the
    JSON [a] of the answers and the score string [sc]. *)
Definition completionEffects (a sc : string) : list Effect :=
  [SetItem LocalStorage "focusFoundersQuizAnswers" a;
   SetItem LocalStorage "focusFoundersQuizScore" sc;
   RouterPush "/quiz/results"].

(** ** The stored path, as the results view reads it *)

(** A string between double quotes. *)
Definition quoted (s : string) : string :=
  String (Ascii.ascii_of_nat 34) (s +:+ String (Ascii.ascii_of_nat 34) "").

(** The JSON text of the path object for ids that need no escape: an
    object with the keys businessType and growthStage, in this order, the
    ids between double quotes and [null] for a missing business type. *)
Definition pathJson (b : option BusinessType) (g : GrowthStage) : string :=
  "{" +:+ quoted "businessType" +:+ ":"
      +:+ match b with Some b => quoted b | None => "null" end
      +:+ "," +:+ quoted "growthStage" +:+ ":" +:+ quoted g +:+ "}".

(** No character of [s] is escaped by [JSON.stringify]: no control
    character, no double quote, no backslash. *)
Definition plain (s : string) : bool :=
  forallb (λ c, let n := Ascii.nat_of_ascii c in
                (32 <=? n)%nat && negb (n =? 34)%nat && negb (n =? 92)%nat)
          (String.list_ascii_of_string s).

(** The text of the path freelancer/startup as the results view reads it
    from the storage, character by character: an opening brace, the key
    businessType and the id freelancer, each between double quotes (34) and
    joined by a colon, a comma, the key growthStage and the id startup in
    the same way, and a closing brace. *)
Definition freelancerStartupJson : string :=
  String.string_of_list_ascii (Ascii.ascii_of_nat <$> [
    123; 34; 98; 117; 115; 105; 110; 101; 115; 115; 84; 121; 112; 101; 34;
    58; 34; 102; 114; 101; 101; 108; 97; 110; 99; 101; 114; 34; 44; 34;
    103; 114; 111; 119; 116; 104; 83; 116; 97; 103; 101; 34; 58; 34; 115;
    116; 97; 114; 116; 117; 112; 34; 125]%nat).

(** The same for the path freelancer/growing. *)
Definition freelancerGrowingJson : string :=
  String.string_of_list_ascii (Ascii.ascii_of_nat <$> [
    123; 34; 98; 117; 115; 105; 110; 101; 115; 115; 84; 121; 112; 101; 34;
    58; 34; 102; 114; 101; 101; 108; 97; 110; 99; 101; 114; 34; 44; 34;
    103; 114; 111; 119; 116; 104; 83; 116; 97; 103; 101; 34; 58; 34; 103;
    114; 111; 119; 105; 110; 103; 34; 125]%nat).

(** ** The progress value in binary64 *)

(** The rational a finite binary64 number equals. *)
Definition valueOf (f : float) : option Q :=
  match Prim2SF f with
  | S754_zero _ => Some 0%Q
  | S754_finite negative m e =>
      let mag := if decide (0 ≤ e)%Z
                 then inject_Z (Z.pos m * 2 ^ e)
                 else (Z.pos m # Z.to_pos (2 ^ (- e)))%Q in
      Some (if negative then (- mag)%Q else mag)
  | _ => None
  end.

(** [progress] of the questions render as the engine computes it, for the
    index of the component and the length of [questions]. *)
Definition progressOf
    (bank : option BusinessType → option GrowthStage → list Question)
    (c : Component) : float :=
  progress_binary64 (currentQuestionIndex c) (length (questionsOf bank c)).

(** The rounding error allowed to the two operations of [progress]. *)
Definition progressError : Q := (1 # 2 ^ 45)%Q.

(** What is checked of the binary64 progress at index [i] of [n]: it is a
    finite number within [progressError] of 100 * (i + 1) / n, above 0, at
    most 100, and 100 exactly when [i] is the last index. *)
Definition progressChecked (i n : nat) : bool :=
  match valueOf (progress_binary64 i n) with
  | Some v =>
      let exact := (100 * (inject_Z (Z.of_nat (i + 1)) / inject_Z (Z.of_nat n)))%Q in
      Qle_bool (Qabs (v - exact)) progressError
      && negb (Qle_bool v 0)
      && Qle_bool v 100
      && Bool.eqb (Qeq_bool v 100) (i + 1 =? n)%nat
  | None => false
  end.

(** The check for every index of every question count up to [bound]. *)
Definition progressCheckedUpTo (bound : nat) : bool :=
  forallb (λ n, forallb (λ i, progressChecked i n) (List.seq 0 n))
          (List.seq 1 bound).

(** Unfolding of the section-level definitions by name. *)
Ltac unfold_click := unfold click.
Ltac unfold_render := unfold render.
Ltac unfold_questionsOf := unfold questionsOf in *.

(** ** The poster of a video

    [getPosterFromVideo] and the string methods it calls.  A string is the
    sequence of its bytes; the patterns searched for are ASCII, so the
    first match in the bytes is the first match in the code units. *)

Module JsString.

(** [s.startsWith(pat)]. *)
Definition startsWith (s pat : string) : bool := String.prefix pat s.

(** [s] without its first [n] characters. *)
Fixpoint skip (n : nat) (s : string) : string :=
  match n, s with
  | O, _ => s
  | S n', String _ s' => skip n' s'
  | S _, EmptyString => EmptyString
  end.

(** [s.replace(pat, rep)] for a string pattern and a replacement without
    a dollar sign: the first occurrence of [pat] is replaced. *)
Fixpoint replace (pat rep s : string) : string :=
  if String.prefix pat s then rep +:+ skip (String.length pat) s
  else match s with
       | EmptyString => EmptyString
       | String c s' => String c (replace pat rep s')
       end.

(** [s.includes(pat)]. *)
Fixpoint includes (pat s : string) : bool :=
  if String.prefix pat s then true
  else match s with
       | EmptyString => false
       | String _ s' => includes pat s'
       end.

End JsString.

Definition getPosterFromVideo (videoUrl : string) : string :=
  if JsString.startsWith videoUrl "/videos/" then ""
  else
    JsString.replace ".mp4" ".jpg"
      (JsString.replace "/video/upload/q_auto,f_auto/"
                        "/video/upload/so_0,f_jpg,q_auto/" videoUrl).

(** ** The header of the growth-stage screen *)

(** [selectedType] of the growth-stage render:
    [businessTypes.find(bt => bt.id === selectedBusinessType)]. *)
Definition selectedType (businessTypes : list BusinessTypeConfig)
    (c : Component) : option BusinessTypeConfig :=
  List.find (λ bt, bool_decide (Some (bt_id bt) = selectedBusinessType c))
            businessTypes.

(** ** Further invariants of a run *)

(** The edges of the wizard. *)
Definition edge (s s' : Step) : bool :=
  match s, s' with
  | intro, business_type
  | business_type, growth_stage
  | growth_stage, business_type
  | growth_stage, questions
  | questions, questions
  | questions, growth_stage => true
  | _, _ => false
  end.

(** The selections come from the catalogs, and the screens after a
    selection have it. *)
Definition selectionInv (bts : list BusinessTypeConfig) (w : World) : Prop :=
  let c := component w in
  (∀ b, selectedBusinessType c = Some b → b ∈ bt_id <$> bts)
  ∧ (∀ g, selectedGrowthStage c = Some g → g ∈ gs_id <$> growthStages)
  ∧ (step c = growth_stage ∨ step c = questions →
     is_Some (selectedBusinessType c))
  ∧ (step c = questions → is_Some (selectedGrowthStage c)).

(** [p] is the point value of an option of [q]. *)
Definition offers (q : Question) (p : Z) : Prop :=
  p ∈ points <$> options q.

(** The recorded list holds numbers only, and in the question sequence the
    number in slot [j] is offered by question [j]. *)
Definition recordedInv
    (bank : option BusinessType → option GrowthStage → list Question)
    (w : World) : Prop :=
  let c := component w in
  (∃ ps, answers c = Js.number <$> ps)
  ∧ (step c = questions →
     ∀ j p, answers c !! j = Some (Js.number p) →
            ∃ q, questionsOf bank c !! j = Some q ∧ offers q p).

(** In the question sequence the storage mirrors the component: the path
    key holds the selections, the answers key the recorded list, the score
    key nothing before a hand-off. *)
Definition storageInv (w : World) : Prop :=
  let c := component w in
  step c = questions →
  (∃ g, selectedGrowthStage c = Some g
        ∧ localStorage w !! "focusFoundersQuizPath"
          = Some (stringify_path (selectedBusinessType c) g))
  ∧ (localStorage w !! "focusFoundersQuizAnswers"
     = if decide (answers c = []) then None
       else Some (Js.stringify_array (answers c)))
  ∧ (handedOff w = false → localStorage w !! "focusFoundersQuizScore" = None).

(** Two worlds with the same component state and the same effects so
    far. *)
Definition sameSession (w1 w2 : World) : Prop :=
  component w1 = component w2 ∧ log w1 = log w2.

(** The three keys of the wizard. *)
Definition quizKeys : list string :=
  ["focusFoundersQuizPath"; "focusFoundersQuizAnswers"; "focusFoundersQuizScore"].

(** * Properties *)

(** ** Arrays *)

Section JsArrays.

Implicit Types (a : list Js.Elem) (ps : list Z) (i j : nat).

Lemma spread_length a : length (Js.spread a) = length a.
Proof. unfold Js.spread. by rewrite length_fmap. Qed.

Lemma get_spread a j : Js.get (Js.spread a) j = Js.get a j.
Proof.
  unfold Js.get, Js.spread. rewrite list_lookup_fmap.
  destruct (a !! j) as [[| |n]|]; reflexivity.
Qed.

Lemma spread_numbers ps : Js.spread (Js.number <$> ps) = Js.number <$> ps.
Proof.
  unfold Js.spread. rewrite <- list_fmap_compose. reflexivity.
Qed.

Lemma assign_length a i v :
  length (Js.assign a i v) = max (length a) (i + 1).
Proof.
  unfold Js.assign. case_decide.
  - rewrite length_insert. lia.
  - rewrite !length_app, length_replicate. simpl. lia.
Qed.

Lemma assign_lookup_eq a i v : Js.assign a i v !! i = Some v.
Proof.
  unfold Js.assign. case_decide.
  - by apply list_lookup_insert_eq.
  - rewrite lookup_app_r by lia.
    rewrite lookup_app_r by (rewrite length_replicate; lia).
    rewrite length_replicate.
    replace (i - length a - (i - length a))%nat with 0%nat by lia.
    reflexivity.
Qed.

(** Another index that was in range keeps its slot. *)
Lemma assign_lookup_ne a i j v :
  j ≠ i → (j < length a)%nat → Js.assign a i v !! j = a !! j.
Proof.
  intros Hne Hj. unfold Js.assign. case_decide.
  - by apply list_lookup_insert_ne.
  - by rewrite lookup_app_l.
Qed.

(** As an expression [a[j]], every other index reads as before. *)
Lemma get_assign_ne a i j v : j ≠ i → Js.get (Js.assign a i v) j = Js.get a j.
Proof.
  intros Hne. unfold Js.get.
  destruct (decide (j < length a)%nat) as [Hj|Hj].
  - by rewrite assign_lookup_ne.
  - rewrite (lookup_ge_None_2 a j) by lia.
    unfold Js.assign. case_decide.
    { rewrite list_lookup_insert_ne by done.
      by rewrite (lookup_ge_None_2 a j) by lia. }
    rewrite lookup_app_r by lia.
    destruct (decide (j - length a < i - length a)%nat) as [Hlt|Hge].
    + rewrite lookup_app_l by (rewrite length_replicate; lia).
      rewrite lookup_replicate_2 by lia. reflexivity.
    + rewrite lookup_app_r by (rewrite length_replicate; lia).
      rewrite length_replicate.
      rewrite lookup_ge_None_2; [reflexivity | simpl; lia].
Qed.

Lemma assign_numbers_end ps p :
  Js.assign (Js.number <$> ps) (length ps) (Js.number p)
  = Js.number <$> (ps ++ [p])%list.
Proof.
  unfold Js.assign. rewrite length_fmap. case_decide; [lia|].
  rewrite Nat.sub_diag. simpl. by rewrite fmap_app.
Qed.

Lemma roundDouble_safe (z : Z) : Js.safeInteger z → Js.roundDouble z = Js.Int z.
Proof.
  unfold Js.safeInteger, Js.MAX_SAFE_INTEGER, Js.roundDouble. intros Hz.
  rewrite decide_True; [reflexivity|]. lia.
Qed.

Lemma toString_safe (z : Z) : Js.safeInteger z → Js.toString (Js.Int z) = pretty z.
Proof.
  intros Hz. unfold Js.toString, Js.toStringPositive.
  destruct z as [|p|p]; simpl.
  - reflexivity.
  - by rewrite decide_True.
  - rewrite decide_True; [reflexivity|].
    unfold Js.safeInteger, Js.MAX_SAFE_INTEGER in *. lia.
Qed.

Lemma total_cons p ps : total (p :: ps) = (p + total ps)%Z.
Proof. reflexivity. Qed.

Lemma total_abs_nonneg ps : (0 ≤ total (Z.abs <$> ps))%Z.
Proof.
  induction ps as [|p ps IH]; [done|].
  rewrite fmap_cons, total_cons. lia.
Qed.

(** The fold of [reduce] over numbers whose absolute values, with that of
    the accumulator, sum to a safe integer: every addition is exact. *)
Lemma reduce_sum_numbers_from ps z :
  (Z.abs z + total (Z.abs <$> ps) ≤ Js.MAX_SAFE_INTEGER)%Z →
  foldl (λ sum score,
           match score with Js.hole => sum | _ => Js.add sum score end)
        (Js.Int z) (Js.number <$> ps)
  = Js.Int (z + total ps).
Proof.
  revert z. induction ps as [|p ps IH]; intros z Hsafe.
  - simpl. f_equal. lia.
  - rewrite !fmap_cons, !total_cons in *. simpl.
    pose proof (total_abs_nonneg ps) as Hnn.
    rewrite roundDouble_safe by (unfold Js.safeInteger; lia).
    rewrite IH by lia. f_equal. lia.
Qed.

Lemma reduce_sum_numbers ps :
  (total (Z.abs <$> ps) ≤ Js.MAX_SAFE_INTEGER)%Z →
  Js.reduce_sum (Js.number <$> ps) = Js.Int (total ps).
Proof.
  intros Hsafe. unfold Js.reduce_sum.
  rewrite reduce_sum_numbers_from; [reflexivity | lia].
Qed.

(** The sum itself is then a safe integer, and so is every summand. *)
Lemma total_safe ps :
  (total (Z.abs <$> ps) ≤ Js.MAX_SAFE_INTEGER)%Z → Js.safeInteger (total ps).
Proof.
  intros Hsafe. unfold Js.safeInteger.
  cut (Z.abs (total ps) ≤ total (Z.abs <$> ps))%Z; [lia|]. clear Hsafe.
  induction ps as [|p ps IH]; [done|].
  rewrite fmap_cons, !total_cons. lia.
Qed.

Lemma summands_safe ps :
  (total (Z.abs <$> ps) ≤ Js.MAX_SAFE_INTEGER)%Z → Forall Js.safeInteger ps.
Proof.
  induction ps as [|p ps IH]; intros Hsafe; constructor;
    rewrite fmap_cons, total_cons in Hsafe;
    pose proof (total_abs_nonneg ps).
  - unfold Js.safeInteger. lia.
  - apply IH. lia.
Qed.

(** The JSON of an array of safe integers is the list of their decimal
    digits. *)
Lemma stringify_array_safe ps :
  Forall Js.safeInteger ps →
  Js.stringify_array (Js.number <$> ps)
  = "[" +:+ String.concat "," (pretty <$> ps) +:+ "]".
Proof.
  intros Hsafe. unfold Js.stringify_array.
  rewrite <- list_fmap_compose. do 3 f_equal. apply Forall_fmap_ext_1.
  eapply Forall_impl; [exact Hsafe|]. intros p Hp.
  exact (toString_safe p Hp).
Qed.

Lemma total_app ps qs : total (ps ++ qs)%list = total ps + total qs.
Proof. induction ps as [|p ps IH]; simpl; lia. Qed.

End JsArrays.

(** ** The two outcomes of [handleAnswer] *)

Lemma handleAnswer_more r qs p w :
  (currentQuestionIndex r + 1 < length qs)%nat →
  handleAnswer r qs p w =
  let newAnswers :=
    Js.assign (Js.spread (answers r)) (currentQuestionIndex r) (Js.number p) in
  {| component := {| step := step (component w);
                     selectedBusinessType := selectedBusinessType (component w);
                     selectedGrowthStage := selectedGrowthStage (component w);
                     currentQuestionIndex := currentQuestionIndex r + 1;
                     answers := newAnswers |};
     localStorage :=
       <["focusFoundersQuizAnswers" := Js.stringify_array newAnswers]>
         (localStorage w);
     sessionStorage := sessionStorage w;
     log := log w ++ [SetItem LocalStorage "focusFoundersQuizAnswers"
                        (Js.stringify_array newAnswers)] |}.
Proof.
  intros Hlt. unfold handleAnswer, seq. case_decide; [reflexivity | lia].
Qed.

Lemma handleAnswer_last r qs p w :
  ¬ (currentQuestionIndex r + 1 < length qs)%nat →
  handleAnswer r qs p w =
  let newAnswers :=
    Js.assign (Js.spread (answers r)) (currentQuestionIndex r) (Js.number p) in
  {| component := {| step := step (component w);
                     selectedBusinessType := selectedBusinessType (component w);
                     selectedGrowthStage := selectedGrowthStage (component w);
                     currentQuestionIndex := currentQuestionIndex (component w);
                     answers := newAnswers |};
     localStorage :=
       <["focusFoundersQuizScore" := Js.toString (Js.reduce_sum newAnswers)]>
         (<["focusFoundersQuizAnswers" := Js.stringify_array newAnswers]>
            (localStorage w));
     sessionStorage := sessionStorage w;
     log := log w ++ [SetItem LocalStorage "focusFoundersQuizAnswers"
                        (Js.stringify_array newAnswers);
                      SetItem LocalStorage "focusFoundersQuizScore"
                        (Js.toString (Js.reduce_sum newAnswers));
                      RouterPush "/quiz/results"] |}.
Proof.
  intros Hlt. unfold handleAnswer, seq. case_decide; [lia|].
  unfold router_push, localStorage_setItem, setAnswers, onComponent. simpl.
  rewrite <- !app_assoc. reflexivity.
Qed.

Lemma handleAnswer_answers r qs p w :
  answers (component (handleAnswer r qs p w))
  = Js.assign (Js.spread (answers r)) (currentQuestionIndex r) (Js.number p).
Proof.
  destruct (decide (currentQuestionIndex r + 1 < length qs)%nat).
  - by rewrite handleAnswer_more.
  - by rewrite handleAnswer_last.
Qed.

(** ** The JSON of the path *)

Lemma escape_plain (s : string) : plain s = true → Js.escape s = s.
Proof.
  unfold plain. induction s as [|c s IH]; [done|].
  cbn [String.list_ascii_of_string forallb Js.escape].
  intros Hc. apply andb_true_iff in Hc as [Hc Hs].
  apply andb_true_iff in Hc as [Hc H92]. apply andb_true_iff in Hc as [H32 H34].
  apply Nat.leb_le in H32. apply negb_true_iff, Nat.eqb_neq in H34, H92.
  rewrite (IH Hs). unfold Js.escape_char. cbn zeta.
  repeat (case_decide; [lia|]). reflexivity.
Qed.

Lemma stringify_string_plain (s : string) :
  plain s = true → Js.stringify_string s = quoted s.
Proof.
  intros Hs. unfold Js.stringify_string, quoted, Js.dquote.
  by rewrite (escape_plain s Hs).
Qed.

(** For ids that need no escape the stored path is the JSON text. *)
Lemma stringify_path_plain (b : option BusinessType) (g : GrowthStage) :
  (∀ id, b = Some id → plain id = true) →
  plain g = true →
  stringify_path b g = pathJson b g.
Proof.
  intros Hb Hg. unfold stringify_path, pathJson.
  rewrite (stringify_string_plain g Hg).
  rewrite (stringify_string_plain "businessType" eq_refl).
  rewrite (stringify_string_plain "growthStage" eq_refl).
  destruct b as [id|]; [|reflexivity].
  unfold Js.stringify_nullable. by rewrite (stringify_string_plain id (Hb id eq_refl)).
Qed.

(** ** The transitions one by one *)

(** C2. Choosing a growth stage, from any session state whatever its
    history (recorded answers, a persisted score, any question index):
    the persisted answers and score records are gone, the chosen
    (businessType, growthStage) path is persisted, the question index is 0,
    the in-memory answer list is empty and the screen is the question
    sequence.  The persisted path is the JSON of the object with the
    recorded business type and the chosen growth stage: for ids that need
    no escape, the text with the keys businessType and growthStage and the
    ids between double quotes ([null] for no business type). *)
Theorem selectGrowthStage_resets (w : World) (growthStage : GrowthStage) :
  let w' := selectGrowthStage (component w) growthStage w in
  localStorage w' !! "focusFoundersQuizAnswers" = None
  ∧ localStorage w' !! "focusFoundersQuizScore" = None
  ∧ localStorage w' !! "focusFoundersQuizPath"
    = Some (stringify_path (selectedBusinessType (component w)) growthStage)
  ∧ currentQuestionIndex (component w') = 0%nat
  ∧ answers (component w') = []
  ∧ step (component w') = questions
  ∧ selectedGrowthStage (component w') = Some growthStage
  ∧ selectedBusinessType (component w') = selectedBusinessType (component w)
  ∧ ((∀ id, selectedBusinessType (component w) = Some id → plain id = true) →
     plain growthStage = true →
     localStorage w' !! "focusFoundersQuizPath"
     = Some (pathJson (selectedBusinessType (component w)) growthStage)).
Proof.
  cbn -[stringify_path]. repeat split.
  - rewrite lookup_insert_ne by done. apply lookup_delete_eq.
  - rewrite lookup_insert_ne by done. rewrite lookup_delete_ne by done.
    apply lookup_delete_eq.
  - apply lookup_insert_eq.
  - intros Hb Hg. rewrite lookup_insert_eq. f_equal.
    by apply stringify_path_plain.
Qed.

(** C3. Answering with point value [pts] at question index [i], from any
    state with recorded-points list [A]: the new list has [pts] at [i], and
    every other index reads as it did; in particular every other point
    that was recorded stays in its slot. *)
Theorem handleAnswer_overwrites_only_current
    (w : World) (qs : list Question) (pts : Z) :
  let A := answers (component w) in
  let i := currentQuestionIndex (component w) in
  let A' := answers (component (handleAnswer (component w) qs pts w)) in
  A' !! i = Some (Js.number pts)
  ∧ Js.get A' i = Js.number pts
  ∧ (∀ j, j ≠ i → Js.get A' j = Js.get A j)
  ∧ (∀ j v, j ≠ i → A !! j = Some (Js.number v) → A' !! j = Some (Js.number v)).
Proof.
  intros A i A'. subst A'. rewrite handleAnswer_answers. fold A i.
  split; [apply assign_lookup_eq|].
  split; [unfold Js.get; by rewrite assign_lookup_eq|].
  split.
  - intros j Hne. rewrite get_assign_ne by done. apply get_spread.
  - intros j v Hne Hj.
    rewrite assign_lookup_ne.
    + unfold Js.spread. rewrite list_lookup_fmap, Hj. reflexivity.
    + done.
    + rewrite spread_length. by apply lookup_lt_Some in Hj.
  Qed.

(** C4. Going back in the question sequence: at an index above 0 the index
    goes down by exactly one and nothing else changes; at index 0 only the
    screen changes, to the growth-stage selection, and the recorded
    business type, growth stage and answers stay as they were. *)
Theorem goBack_changes_index_or_screen_only (w : World) :
  let c := component w in
  let w' := goBack c w in
  let c' := component w' in
  selectedBusinessType c' = selectedBusinessType c
  ∧ selectedGrowthStage c' = selectedGrowthStage c
  ∧ answers c' = answers c
  ∧ localStorage w' = localStorage w
  ∧ sessionStorage w' = sessionStorage w
  ∧ log w' = log w
  ∧ ((0 < currentQuestionIndex c)%nat →
     currentQuestionIndex c' = (currentQuestionIndex c - 1)%nat
     ∧ (currentQuestionIndex c' + 1)%nat = currentQuestionIndex c
     ∧ step c' = step c)
  ∧ (currentQuestionIndex c = 0%nat →
     step c' = growth_stage ∧ currentQuestionIndex c' = 0%nat).
Proof.
  cbn. unfold goBack. case_decide as Hi; cbn.
  - repeat split; try reflexivity; lia.
  - repeat split; try reflexivity; lia.
Qed.

Lemma goBack_changes_index_or_screen_only_witness :
  let w := {| component := {| step := questions;
                              selectedBusinessType := Some "freelancer";
                              selectedGrowthStage := Some "startup";
                              currentQuestionIndex := 2;
                              answers := [Js.number 2; Js.number 4] |};
              localStorage := ∅; sessionStorage := ∅; log := [] |} in
  currentQuestionIndex (component (goBack (component w) w)) = 1%nat
  ∧ step (component (goBack (component w) w)) = questions.
Proof.
  intros w.
  destruct (goBack_changes_index_or_screen_only w)
    as (_ & _ & _ & _ & _ & _ & Hpos & _).
  destruct Hpos as (Hi & _ & Hs); [simpl; lia|].
  split; [exact Hi | exact Hs].
Defined.

(** C10. Choosing a business type, from any session state: only the
    recorded business type and the screen change.  The recorded growth
    stage, the answer list, the question index and the storage (path,
    answers and score keys included) are as before, and nothing is written
    or removed: earlier answers are still there after it. *)
Theorem selectBusinessType_changes_selection_and_screen_only
    (w : World) (businessType : BusinessType) :
  let w' := selectBusinessType businessType w in
  selectedBusinessType (component w') = Some businessType
  ∧ step (component w') = growth_stage
  ∧ selectedGrowthStage (component w') = selectedGrowthStage (component w)
  ∧ answers (component w') = answers (component w)
  ∧ currentQuestionIndex (component w') = currentQuestionIndex (component w)
  ∧ localStorage w' = localStorage w
  ∧ sessionStorage w' = sessionStorage w
  ∧ log w' = log w.
Proof. cbn. repeat split. Qed.

(** ** Clicks and runs *)

Lemma existsb_false_filter {A} (f : A → bool) (l : list A) :
  existsb f l = false ↔ length (List.filter f l) = 0%nat.
Proof.
  induction l as [|x l IH]; simpl; [done|].
  destruct (f x); simpl; [split; intros; discriminate | exact IH].
Qed.

Lemma scoreWrites_app l k : scoreWrites (l ++ k) = (scoreWrites l + scoreWrites k)%nat.
Proof. unfold scoreWrites. by rewrite List.filter_app, length_app. Qed.

Lemma handOffs_app l k : handOffs (l ++ k) = (handOffs l + handOffs k)%nat.
Proof. unfold handOffs. by rewrite List.filter_app, length_app. Qed.

Section Runs.

Variable businessTypes : list BusinessTypeConfig.
Variable getQuestionsForPath :
  option BusinessType → option GrowthStage → list Question.

#[local] Abbreviation questionsOf := (questionsOf getQuestionsForPath).
#[local] Abbreviation render := (render businessTypes getQuestionsForPath).
#[local] Abbreviation click := (click businessTypes getQuestionsForPath).
#[local] Abbreviation run := (run businessTypes getQuestionsForPath).
#[local] Abbreviation reachable := (reachable businessTypes getQuestionsForPath).

Lemma handedOff_false w : handedOff w = false ↔ handOffs (log w) = 0%nat.
Proof. apply existsb_false_filter. Qed.

(** What a successful click was. *)
Lemma click_inv e w w' :
  click e w = Some w' →
  let c := component w in
  match e with
  | ClickStart => step c = intro ∧ w' = startQuiz w
  | ClickBusinessType id =>
      step c = business_type ∧ id ∈ bt_id <$> businessTypes
      ∧ w' = selectBusinessType id w
  | ClickGrowthStage id =>
      step c = growth_stage ∧ id ∈ gs_id <$> growthStages
      ∧ w' = selectGrowthStage c id w
  | ClickBackToBusinessType =>
      step c = growth_stage ∧ w' = backToBusinessType w
  | ClickOption pts =>
      step c = questions
      ∧ (∃ q, questionsOf c !! currentQuestionIndex c = Some q
              ∧ pts ∈ points <$> options q)
      ∧ w' = handleAnswer c (questionsOf c) pts w
  | ClickPrevious =>
      step c = questions
      ∧ is_Some (questionsOf c !! currentQuestionIndex c)
      ∧ w' = goBack c w
  end.
Proof.
  unfold_click. unfold_render. destruct (step (component w)) eqn:Hs; simpl.
  - destruct e; simpl; try discriminate. intros [= <-]. done.
  - destruct e; simpl; try discriminate.
    case_decide; simpl; [|discriminate]. intros [= <-]. done.
  - destruct e; simpl; try discriminate.
    + case_decide; simpl; [|discriminate]. intros [= <-]. done.
    + intros [= <-]. done.
  - destruct (questionsOf (component w) !! currentQuestionIndex (component w))
      as [q|] eqn:Hq; simpl; [|discriminate].
    destruct e; simpl; try discriminate.
    + case_decide; simpl; [|discriminate]. intros [= <-]. eauto.
    + intros [= <-]. eauto.
Qed.

(** A property kept by every click holds along every run. *)
Lemma run_invariant (P : World → Prop) :
  (∀ e w w', click e w = Some w' → P w → P w') →
  ∀ es w w', run es w = Some w' → P w → P w'.
Proof.
  intros Hstep es. induction es as [|e es IH]; intros w w' Hrun Hw.
  - simpl in Hrun. by injection Hrun as <-.
  - simpl in Hrun. destruct (click e w) as [w1|] eqn:Hc; [|discriminate].
    simpl in Hrun. eapply IH; [exact Hrun|]. eapply Hstep; eauto.
Qed.

Lemma reachable_invariant (P : World → Prop) :
  (∀ ls ss, P (mount ls ss)) →
  (∀ e w w', click e w = Some w' → P w → P w') →
  ∀ w, reachable w → P w.
Proof.
  intros Hinit Hstep w (ls & ss & es & Hrun).
  eapply run_invariant; eauto.
Qed.

(** *** The question index stays inside the question sequence *)

Lemma click_indexInv e w w' :
  click e w = Some w' → indexInv getQuestionsForPath w → indexInv getQuestionsForPath w'.
Proof.
  intros Hc [Hother Hq]. apply click_inv in Hc.
  destruct e; simpl in Hc.
  - destruct Hc as [Hs ->]. split; cbn; [intros _|done].
    apply Hother. by rewrite Hs.
  - destruct Hc as (Hs & _ & ->). split; cbn; [intros _|done].
    apply Hother. by rewrite Hs.
  - destruct Hc as (Hs & _ & ->). split; cbn; [done|]. intros _. by left.
  - destruct Hc as [Hs ->]. split; cbn; [intros _|done].
    apply Hother. by rewrite Hs.
  - destruct Hc as (Hs & (q & Hlook & _) & ->).
    apply lookup_lt_Some in Hlook.
    destruct (decide (currentQuestionIndex (component w) + 1
                      < length (questionsOf (component w)))%nat) as [Hlt|Hge].
    + rewrite handleAnswer_more by done. split; cbn.
      * intros Hne. by rewrite Hs in Hne.
      * intros _. right. exact Hlt.
    + rewrite handleAnswer_last by done. split; cbn.
      * intros Hne. by rewrite Hs in Hne.
      * intros _. right. exact Hlook.
  - destruct Hc as (Hs & [q Hlook] & ->).
    apply lookup_lt_Some in Hlook.
    unfold goBack. case_decide; split; cbn.
    + intros Hne. by rewrite Hs in Hne.
    + intros _. right.
      unfold_questionsOf. cbn. lia.
    + intros _. lia.
    + done.
Qed.

Lemma reachable_indexInv w : reachable w → indexInv getQuestionsForPath w.
Proof.
  apply reachable_invariant.
  - intros ls ss. split; [done|]. cbn. discriminate.
  - apply click_indexInv.
Qed.

(** C7. In a reachable state of the question sequence: if the question
    sequence of the selected path is not empty, the question index is below
    its length, so the read of the current question is in range and the
    render succeeds; if the sequence is empty, the read at the current
    index is out of range and the render throws. *)
Theorem index_in_range (w : World) :
  reachable w →
  step (component w) = questions →
  let qs := questionsOf (component w) in
  let i := currentQuestionIndex (component w) in
  ((0 < length qs)%nat →
     (i < length qs)%nat ∧ is_Some (qs !! i) ∧ is_Some (render (component w)))
  ∧ (length qs = 0%nat →
     i = 0%nat ∧ qs !! i = None ∧ render (component w) = None).
Proof.
  intros Hr Hs qs i. destruct (reachable_indexInv w Hr) as [_ Hq].
  specialize (Hq Hs). fold qs i in Hq. split.
  - intros Hpos. assert (Hi : (i < length qs)%nat) by lia.
    split; [exact Hi|].
    destruct (lookup_lt_is_Some_2 qs i Hi) as [q Hlook].
    split; [by exists q|].
    unfold_render. rewrite Hs. fold qs i. rewrite Hlook. by eexists.
  - intros Hzero. assert (Hi : i = 0%nat) by lia.
    assert (Hnone : qs !! i = None) by (apply lookup_ge_None_2; lia).
    split; [exact Hi|]. split; [exact Hnone|].
    unfold_render. rewrite Hs. fold qs i. by rewrite Hnone.
Qed.

(** *** The recorded-points list and the question index *)

Lemma click_answersInv e w w' :
  click e w = Some w' →
  answersInv getQuestionsForPath w → answersInv getQuestionsForPath w'.
Proof.
  intros Hc [Hle Hq]. apply click_inv in Hc.
  destruct e; simpl in Hc.
  - destruct Hc as [Hs ->]. split; cbn; [exact Hle|done].
  - destruct Hc as (Hs & _ & ->). split; cbn; [exact Hle|done].
  - destruct Hc as (Hs & _ & ->). split; cbn; [lia|]. intros _. lia.
  - destruct Hc as [Hs ->]. split; cbn; [exact Hle|done].
  - destruct Hc as (Hs & (q & Hlook & _) & ->).
    apply lookup_lt_Some in Hlook. specialize (Hq Hs).
    unfold answersInv. rewrite handleAnswer_answers.
    rewrite assign_length, spread_length.
    destruct (decide (currentQuestionIndex (component w) + 1
                      < length (questionsOf (component w)))%nat) as [Hlt|Hge].
    + rewrite handleAnswer_more by done. cbn.
      unfold_questionsOf. cbn. split; [lia|]. intros _. lia.
    + rewrite handleAnswer_last by done. cbn.
      unfold_questionsOf. cbn. split; [lia|]. intros _. lia.
  - destruct Hc as (Hs & _ & ->). specialize (Hq Hs).
    unfold goBack. case_decide; split; cbn.
    + lia.
    + intros _. exact Hq.
    + exact Hle.
    + done.
Qed.

(** C8, as the code has it. The question index never exceeds the length of
    the recorded-points list, and in the question sequence that length
    never exceeds the number of questions of the path: this holds when the
    page mounts, every click (start, choose business type, choose growth
    stage, answer, back) keeps it, so it holds in every reachable state. *)
Theorem index_never_exceeds_recorded_points :
  (∀ ls ss, answersInv getQuestionsForPath (mount ls ss))
  ∧ (∀ e w w', click e w = Some w' →
       answersInv getQuestionsForPath w → answersInv getQuestionsForPath w')
  ∧ (∀ w, reachable w → answersInv getQuestionsForPath w).
Proof.
  assert (Hinit : ∀ ls ss, answersInv getQuestionsForPath (mount ls ss)).
  { intros ls ss. split; cbn; [lia|discriminate]. }
  split; [exact Hinit|]. split; [apply click_answersInv|].
  apply reachable_invariant; [exact Hinit | apply click_answersInv].
Qed.

(** *** Effects of a click *)

Lemma scoreWrites_other a key v :
  key ≠ "focusFoundersQuizScore" → scoreWrites [SetItem a key v] = 0%nat.
Proof.
  intros Hne. unfold scoreWrites. simpl.
  by rewrite bool_decide_eq_false_2.
Qed.

(** A click appends to the log, only with effects on [localStorage] or on
    the router, and leaves [sessionStorage] alone. *)
Lemma click_effects e w w' :
  click e w = Some w' →
  sessionStorage w' = sessionStorage w
  ∧ ∃ new, log w' = log w ++ new ∧ Forall onLocalStorage new.
Proof.
  assert (Hset : ∀ k v, onLocalStorage (SetItem LocalStorage k v)).
  { intros k v a [= <-]. reflexivity. }
  assert (Hdel : ∀ k, onLocalStorage (RemoveItem LocalStorage k)).
  { intros k a [= <-]. reflexivity. }
  assert (Hpush : ∀ r, onLocalStorage (RouterPush r)).
  { intros r a [=]. }
  intros Hc. apply click_inv in Hc.
  destruct e; simpl in Hc.
  - destruct Hc as [_ ->]. split; [done|]. exists []. by rewrite app_nil_r.
  - destruct Hc as (_ & _ & ->). split; [done|]. exists []. by rewrite app_nil_r.
  - destruct Hc as (_ & _ & ->). split; [done|]. cbn -[stringify_path].
    eexists. rewrite <- !app_assoc. split; [reflexivity|].
    simpl. repeat constructor; auto.
  - destruct Hc as [_ ->]. split; [done|]. exists []. by rewrite app_nil_r.
  - destruct Hc as (_ & _ & ->).
    destruct (decide (currentQuestionIndex (component w) + 1
                      < length (questionsOf (component w)))%nat) as [Hlt|Hge].
    + rewrite handleAnswer_more by done. split; [done|]. cbn.
      eexists. split; [reflexivity|]. repeat constructor; auto.
    + rewrite handleAnswer_last by done. split; [done|]. cbn.
      eexists. split; [reflexivity|]. repeat constructor; auto.
  - destruct Hc as (_ & _ & ->). unfold goBack. case_decide.
    + split; [done|]. exists []. by rewrite app_nil_r.
    + split; [done|]. exists []. by rewrite app_nil_r.
Qed.

(** Effects that neither write the score nor push a route do not count. *)
Lemma counts_other l k :
  Forall (λ e, isSetItemOf "focusFoundersQuizScore" e = false
               ∧ isRouterPush e = false) k →
  scoreWrites (l ++ k) = scoreWrites l ∧ handOffs (l ++ k) = handOffs l.
Proof.
  intros Hk. rewrite scoreWrites_app, handOffs_app.
  cut (scoreWrites k = 0%nat ∧ handOffs k = 0%nat); [lia|].
  unfold scoreWrites, handOffs.
  induction Hk as [|e k [He1 He2] _ IH]; simpl; [done|].
  by rewrite He1, He2.
Qed.

Lemma counts_completion l a sc :
  scoreWrites (l ++ completionEffects a sc) = S (scoreWrites l)
  ∧ handOffs (l ++ completionEffects a sc) = S (handOffs l).
Proof.
  rewrite scoreWrites_app, handOffs_app. unfold completionEffects.
  split; [unfold scoreWrites at 2 | unfold handOffs at 2]; simpl; lia.
Qed.

(** A click either is the answer at the last question index, with its
    three effects, or changes neither the number of score writes nor that
    of hand-offs. *)
Lemma click_counts e w w' :
  click e w = Some w' →
  (scoreWrites (log w') = scoreWrites (log w)
   ∧ handOffs (log w') = handOffs (log w))
  ∨ (∃ pts a sc, e = ClickOption pts
       ∧ (currentQuestionIndex (component w) + 1)%nat
         = length (questionsOf (component w))
       ∧ log w' = log w ++ completionEffects a sc).
Proof.
  intros Hc. apply click_inv in Hc.
  destruct e; simpl in Hc.
  - destruct Hc as [_ ->]. by left.
  - destruct Hc as (_ & _ & ->). by left.
  - destruct Hc as (_ & _ & ->). left. cbn -[stringify_path].
    rewrite <- !app_assoc. apply counts_other.
    repeat constructor.
  - destruct Hc as [_ ->]. by left.
  - destruct Hc as (Hs & (q & Hlook & _) & ->).
    apply lookup_lt_Some in Hlook.
    destruct (decide (currentQuestionIndex (component w) + 1
                      < length (questionsOf (component w)))%nat) as [Hlt|Hge].
    + rewrite handleAnswer_more by done. left. cbn.
      apply counts_other. repeat constructor.
    + rewrite handleAnswer_last by done. right. cbn.
      eexists pts, _, _. split; [reflexivity|]. split; [lia | reflexivity].
  - destruct Hc as (_ & _ & ->). left. unfold goBack. by case_decide.
Qed.

Lemma reachable_balance w :
  reachable w → scoreWrites (log w) = handOffs (log w).
Proof.
  revert w.
  apply (reachable_invariant (λ w, scoreWrites (log w) = handOffs (log w))).
  - reflexivity.
  - intros e w1 w2 Hc Hbal.
    destruct (click_counts e w1 w2 Hc)
      as [[-> ->]|(pts & a & sc & _ & _ & ->)]; [exact Hbal|].
    destruct (counts_completion (log w1) a sc) as [-> ->]. by rewrite Hbal.
Qed.

(** The click on an option of the current question runs [handleAnswer]. *)
Lemma click_option w q pts :
  step (component w) = questions →
  questionsOf (component w) !! currentQuestionIndex (component w) = Some q →
  pts ∈ points <$> options q →
  click (ClickOption pts) w
  = Some (handleAnswer (component w) (questionsOf (component w)) pts w).
Proof.
  intros Hs Hlook Hin. unfold_click.
  unfold_render. rewrite Hs. unfold_questionsOf. rewrite Hlook. simpl.
  by rewrite decide_True.
Qed.

(** C5, as the code has it. Every click on an option of the current
    question is taken.  Below the last question index it writes the
    answers key and nothing else.  At the last question index it writes the
    answers key, then the score key, then hands off to the results view,
    once each and in this order.  No other click (start, a selection, back)
    writes the score or hands off.  So in every run the score writes and
    the hand-offs are equally many, one pair for each answer given at the
    last index, and none before the first of them; the page sets no flag
    at the hand-off, and a further answer at the last index is one more
    such answer. *)
Theorem score_written_at_each_completion :
  (∀ w q pts,
     step (component w) = questions →
     questionsOf (component w) !! currentQuestionIndex (component w) = Some q →
     pts ∈ points <$> options q →
     ∃ w', click (ClickOption pts) w = Some w'
           ∧ let i := currentQuestionIndex (component w) in
             let n := length (questionsOf (component w)) in
             let a := Js.stringify_array (answers (component w')) in
             let sc := Js.toString (Js.reduce_sum (answers (component w'))) in
             ((i + 1 < n)%nat →
              log w' = log w ++ [SetItem LocalStorage "focusFoundersQuizAnswers" a]
              ∧ scoreWrites (log w') = scoreWrites (log w)
              ∧ handOffs (log w') = handOffs (log w))
             ∧ (¬ (i + 1 < n)%nat →
                (i + 1)%nat = n
                ∧ log w' = log w ++
                    [SetItem LocalStorage "focusFoundersQuizAnswers" a;
                     SetItem LocalStorage "focusFoundersQuizScore" sc;
                     RouterPush "/quiz/results"]
                ∧ scoreWrites (log w') = S (scoreWrites (log w))
                ∧ handOffs (log w') = S (handOffs (log w))))
  ∧ (∀ e w w',
       click e w = Some w' →
       (∀ pts, e ≠ ClickOption pts) →
       scoreWrites (log w') = scoreWrites (log w)
       ∧ handOffs (log w') = handOffs (log w))
  ∧ (∀ w, reachable w →
       scoreWrites (log w) = handOffs (log w)
       ∧ (handedOff w = false → scoreWrites (log w) = 0%nat)).
Proof.
  split; [|split].
  - intros w q pts Hs Hlook Hin.
    rewrite (click_option w q pts Hs Hlook Hin). eexists. split; [reflexivity|].
    cbn zeta. apply lookup_lt_Some in Hlook. split.
    + intros Hlt. rewrite handleAnswer_more by done. cbn.
      split; [reflexivity|].
      apply counts_other. repeat constructor.
    + intros Hge. rewrite handleAnswer_last by done. cbn.
      split; [lia|]. split; [reflexivity|].
      apply (counts_completion (log w)).
  - intros e w w' Hc Hne.
    destruct (click_counts e w w' Hc) as [Hsame|(pts & _ & _ & -> & _)];
      [exact Hsame|]. by destruct (Hne pts).
  - intros w Hr. pose proof (reachable_balance w Hr) as Hbal.
    split; [exact Hbal|]. intros Hoff. apply handedOff_false in Hoff. lia.
Qed.

(** C9, as the code has it. Every storage effect of every run targets
    [localStorage]; [sessionStorage] is never written; and what the run
    left in [localStorage] is still there when the browsing session has
    ended. *)
Theorem storage_writes_target_localStorage
    (ls ss : gmap string string) (es : list Event) (w : World) :
  run es (mount ls ss) = Some w →
  Forall onLocalStorage (log w)
  ∧ sessionStorage w = ss
  ∧ localStorage (endSession w) = localStorage w
  ∧ sessionStorage (endSession w) = ∅.
Proof.
  intros Hrun.
  assert (Hinv : Forall onLocalStorage (log w) ∧ sessionStorage w = ss).
  { apply (run_invariant
             (λ w, Forall onLocalStorage (log w) ∧ sessionStorage w = ss))
      with (es := es) (w := mount ls ss); [|exact Hrun|by split].
    intros e w1 w2 Hc [Hlog Hss].
    apply click_effects in Hc as (Hss' & new & Hnew & Hall).
    split; [|congruence]. rewrite Hnew. by apply Forall_app. }
  destruct Hinv as [Hlog Hss]. done.
Qed.

(** *** Answering the whole question sequence *)

(** With the points [pre] recorded and the index after them, answering the
    remaining questions with [rest] completes the quiz; the sums stay safe
    integers. *)
Lemma answer_remaining (rest : list Z) : ∀ (pre : list Z) (w : World),
  step (component w) = questions →
  currentQuestionIndex (component w) = length pre →
  answers (component w) = Js.number <$> pre →
  Forall2 (λ q pts, pts ∈ points <$> options q)
          (drop (length pre) (questionsOf (component w))) rest →
  rest ≠ [] →
  (total (Z.abs <$> (pre ++ rest)) ≤ Js.MAX_SAFE_INTEGER)%Z →
  ∃ w', run (ClickOption <$> rest) w = Some w'
        ∧ answers (component w') = Js.number <$> (pre ++ rest)
        ∧ localStorage w' !! "focusFoundersQuizAnswers"
          = Some (Js.stringify_array (Js.number <$> (pre ++ rest)))
        ∧ localStorage w' !! "focusFoundersQuizScore"
          = Some (pretty (total (pre ++ rest)))
        ∧ handedOff w' = true.
Proof.
  induction rest as [|p rest IH]; intros pre w Hs Hi Ha Hopts Hne Hsafe;
    [done|].
  clear Hne.
  assert (Hlen : length (questionsOf (component w))
                 = (length pre + S (length rest))%nat).
  { pose proof (Forall2_length _ _ _ Hopts) as Hd.
    rewrite length_drop in Hd. simpl in Hd. lia. }
  inversion Hopts as [|q p' qs' rest' Hq Hrest Hdrop]; subst.
  assert (Hlook : questionsOf (component w) !! length pre = Some q).
  { rewrite <- (Nat.add_0_r (length pre)), <- lookup_drop, <- Hdrop. done. }
  assert (Htail : drop (S (length pre)) (questionsOf (component w)) = qs').
  { rewrite (drop_S _ _ _ Hlook) in Hdrop. congruence. }
  assert (Hnew : Js.assign (Js.spread (answers (component w)))
                   (currentQuestionIndex (component w)) (Js.number p)
                 = Js.number <$> (pre ++ [p])).
  { rewrite Ha, Hi, spread_numbers. apply assign_numbers_end. }
  simpl. rewrite (click_option w q p) by (rewrite ?Hi; done). simpl.
  destruct rest as [|p2 rest].
  - simpl in Hlen.
    rewrite handleAnswer_last by lia. rewrite Hnew. cbn.
    eexists. split; [reflexivity|]. cbn.
    split; [done|].
    split; [by rewrite lookup_insert_ne, lookup_insert_eq|].
    split.
    + rewrite lookup_insert_eq, reduce_sum_numbers by exact Hsafe.
      by rewrite toString_safe by (by apply total_safe).
    + unfold handedOff. cbn. rewrite existsb_app. simpl. apply orb_true_r.
  - assert (Hmore : (currentQuestionIndex (component w) + 1
                     < length (questionsOf (component w)))%nat).
    { simpl in Hlen. lia. }
    rewrite handleAnswer_more by done. rewrite Hnew. cbn zeta.
    match goal with |- ∃ w', run _ ?w1 = _ ∧ _ =>
      destruct (IH (pre ++ [p]) w1) as (w' & Hrun & Hans & Hla & Hls & Hoff')
    end.
    + exact Hs.
    + cbn. rewrite length_app, Hi. reflexivity.
    + reflexivity.
    + unfold_questionsOf. cbn. rewrite length_app. simpl.
      rewrite Nat.add_1_r, Htail. exact Hrest.
    + done.
    + by rewrite <- app_assoc.
    + exists w'. rewrite <- !app_assoc in *. simpl in *. done.
Qed.

(** C1. On a path with a non-empty question sequence, from the start of
    the sequence (index 0, nothing recorded), answering every question in
    order with the points [ps], each an option of its question, whose
    absolute values sum to a safe integer (so that every addition of the
    score is exact): all the clicks go through, the persisted score is the
    decimal string of the integer sum of [ps], and the persisted answers
    record, the JSON array of the decimal points, and the recorded list are
    [ps]. *)
Theorem answering_all_persists_total (w : World) (ps : list Z) :
  step (component w) = questions →
  currentQuestionIndex (component w) = 0%nat →
  answers (component w) = [] →
  Forall2 (λ q pts, pts ∈ points <$> options q) (questionsOf (component w)) ps →
  ps ≠ [] →
  (total (Z.abs <$> ps) ≤ Js.MAX_SAFE_INTEGER)%Z →
  ∃ w', run (ClickOption <$> ps) w = Some w'
        ∧ localStorage w' !! "focusFoundersQuizScore" = Some (pretty (total ps))
        ∧ Js.reduce_sum (answers (component w')) = Js.Int (total ps)
        ∧ localStorage w' !! "focusFoundersQuizAnswers"
          = Some (Js.stringify_array (Js.number <$> ps))
        ∧ Js.stringify_array (Js.number <$> ps)
          = "[" +:+ String.concat "," (pretty <$> ps) +:+ "]"
        ∧ answers (component w') = Js.number <$> ps
        ∧ length ps = length (questionsOf (component w))
        ∧ handedOff w' = true.
Proof.
  intros Hs Hi Ha Hopts Hne Hsafe.
  destruct (answer_remaining ps [] w) as (w' & Hrun & Hans & Hla & Hls & Hoff');
    try done.
  exists w'. simpl in *. rewrite Hans, reduce_sum_numbers by exact Hsafe.
  apply Forall2_length in Hopts.
  pose proof (stringify_array_safe ps (summands_safe ps Hsafe)). done.
Qed.

(** *** The progress bar *)

Lemma progress_checked_128 : progressCheckedUpTo 128 = true.
Proof. vm_compute. reflexivity. Qed.

(** C6, as the code has it. In an Answering state with question index i
    and N questions, N at most 128, the progress value, computed from the
    index and the count of the render in binary64 as ((i + 1) / N) * 100,
    is a finite number within 2^-45 of the percentage 100 * (i + 1) / N; it
    is above 0, at most 100, and 100 exactly at the last question. *)
Theorem progress_is_rounded_percentage (c : Component) :
  let i := currentQuestionIndex c in
  let n := length (questionsOf c) in
  (i < n)%nat →
  (n ≤ 128)%nat →
  ∃ v : Q,
    valueOf (progressOf getQuestionsForPath c) = Some v
    ∧ (Qabs (v - 100 * (inject_Z (Z.of_nat (i + 1)) / inject_Z (Z.of_nat n)))
       <= 1 # 2 ^ 45)%Q
    ∧ (0 < v)%Q
    ∧ (v <= 100)%Q
    ∧ ((v == 100)%Q ↔ (i + 1)%nat = n).
Proof.
  intros i n Hi Hn.
  pose proof progress_checked_128 as Hall. unfold progressCheckedUpTo in Hall.
  rewrite forallb_forall in Hall.
  assert (Hn' : In n (List.seq 1 128)) by (apply in_seq; lia).
  specialize (Hall n Hn'). rewrite forallb_forall in Hall.
  assert (Hi' : In i (List.seq 0 n)) by (apply in_seq; lia).
  specialize (Hall i Hi'). unfold progressChecked in Hall.
  unfold progressOf. fold i n.
  destruct (valueOf (progress_binary64 i n)) as [v|]; [|discriminate].
  apply andb_true_iff in Hall as [Hall Heq].
  apply andb_true_iff in Hall as [Hall Hle].
  apply andb_true_iff in Hall as [Herr Hpos].
  exists v. split; [reflexivity|].
  split; [by apply Qle_bool_iff|].
  split.
  { apply Qnot_le_lt. intros Hv. apply Qle_bool_iff in Hv.
    by rewrite Hv in Hpos. }
  split; [by apply Qle_bool_iff|].
  apply Bool.eqb_prop in Heq. rewrite <- Qeq_bool_iff, Heq.
  apply Nat.eqb_eq.
Qed.

End Runs.

(** * The poster of a video *)

Section Strings.

Implicit Types (s pat rep a b : string).

Lemma append_nil s : "" +:+ s = s.
Proof. reflexivity. Qed.

Lemma append_cons c a s : String c a +:+ s = String c (a +:+ s).
Proof. reflexivity. Qed.

Lemma append_assoc a b s : (a +:+ b) +:+ s = a +:+ (b +:+ s).
Proof.
  induction a as [|c a IH]; [reflexivity|].
  rewrite !append_cons. by rewrite IH.
Qed.

Lemma append_length a b :
  String.length (a +:+ b) = (String.length a + String.length b)%nat.
Proof.
  induction a as [|c a IH]; [reflexivity|].
  rewrite append_cons. simpl. by rewrite IH.
Qed.

Lemma replace_unfold pat rep s :
  JsString.replace pat rep s
  = if String.prefix pat s then rep +:+ JsString.skip (String.length pat) s
    else match s with
         | EmptyString => EmptyString
         | String c s' => String c (JsString.replace pat rep s')
         end.
Proof. by destruct s. Qed.

Lemma prefix_nil s : String.prefix "" s = true.
Proof. by destruct s. Qed.

Lemma includes_unfold pat s :
  JsString.includes pat s
  = if String.prefix pat s then true
    else match s with
         | EmptyString => false
         | String _ s' => JsString.includes pat s'
         end.
Proof. by destruct s. Qed.

Lemma prefix_append pat b : String.prefix pat (pat +:+ b) = true.
Proof.
  induction pat as [|c pat IH]; [apply prefix_nil|].
  rewrite append_cons. simpl.
  destruct (Ascii.ascii_dec c c); [exact IH | congruence].
Qed.

Lemma skip_append pat b : JsString.skip (String.length pat) (pat +:+ b) = b.
Proof.
  induction pat as [|c pat IH]; [by destruct b|].
  rewrite append_cons. simpl. exact IH.
Qed.

(** A pattern that fits into [a] is a prefix of [a +:+ b] exactly when it
    is one of [a]. *)
Lemma prefix_append_fits pat : ∀ a b,
  (String.length pat ≤ String.length a)%nat →
  String.prefix pat (a +:+ b) = String.prefix pat a.
Proof.
  induction pat as [|c pat IH]; intros a b Hlen; [by rewrite !prefix_nil|].
  destruct a as [|d a]; simpl in Hlen; [lia|].
  rewrite append_cons. simpl.
  destruct (Ascii.ascii_dec c d); [apply IH; lia | reflexivity].
Qed.

Lemma includes_cons pat c s :
  JsString.includes pat (String c s) = false →
  String.prefix pat (String c s) = false ∧ JsString.includes pat s = false.
Proof.
  rewrite includes_unfold.
  destruct (String.prefix pat (String c s)); [discriminate | done].
Qed.

(** Without an occurrence nothing is replaced. *)
Lemma replace_absent pat rep s :
  JsString.includes pat s = false → JsString.replace pat rep s = s.
Proof.
  induction s as [|c s IH]; intros Hno.
  - rewrite includes_unfold in Hno. rewrite replace_unfold.
    destruct (String.prefix pat ""); [discriminate | reflexivity].
  - apply includes_cons in Hno as [Hp Hrest].
    rewrite replace_unfold, Hp. by rewrite IH.
Qed.

(** The occurrence after [a] is the one replaced when no occurrence starts
    inside [a]; [init] is the pattern without its last character. *)
Lemma replace_first pat init l rep b :
  pat = init +:+ String l "" →
  ∀ a,
  JsString.includes pat (a +:+ init) = false →
  JsString.replace pat rep (a +:+ pat +:+ b) = a +:+ rep +:+ b.
Proof.
  intros Hpat. induction a as [|c a IH]; intros Hno.
  - rewrite !append_nil, replace_unfold, prefix_append, skip_append.
    reflexivity.
  - rewrite append_cons in Hno.
    apply includes_cons in Hno as [Hp Hrest].
    rewrite !append_cons, replace_unfold.
    assert (Hfalse : String.prefix pat (String c (a +:+ pat +:+ b)) = false).
    { replace (String c (a +:+ pat +:+ b))
        with (String c (a +:+ init) +:+ String l b).
      - rewrite prefix_append_fits; [exact Hp|].
        rewrite Hpat. simpl. rewrite !append_length. simpl. lia.
      - rewrite append_cons. f_equal.
        rewrite Hpat, !append_assoc. reflexivity. }
    rewrite Hfalse. f_equal. by apply IH.
Qed.

Lemma replace_nonempty pat rep s :
  rep ≠ "" → JsString.replace pat rep s = "" → s = "".
Proof.
  intros Hrep. destruct s as [|c s]; [done|].
  rewrite replace_unfold. destruct (String.prefix pat (String c s)).
  - destruct rep; [done | discriminate].
  - discriminate.
Qed.

End Strings.

(** X1. The poster is empty exactly for a local video (a URL that starts
    with /videos/) and for the empty URL. *)
Theorem getPosterFromVideo_empty_iff (videoUrl : string) :
  getPosterFromVideo videoUrl = ""
  ↔ JsString.startsWith videoUrl "/videos/" = true ∨ videoUrl = "".
Proof.
  unfold getPosterFromVideo.
  destruct (JsString.startsWith videoUrl "/videos/") eqn:Hlocal.
  - split; [by left | done].
  - split.
    + intros Hempty. right.
      apply replace_nonempty in Hempty; [|done].
      by apply replace_nonempty in Hempty.
    + intros [?| ->]; [done | reflexivity].
Qed.

(** X2. A URL that is not local and contains neither the upload segment
    nor .mp4 is its own poster. *)
Theorem getPosterFromVideo_unchanged (videoUrl : string) :
  JsString.startsWith videoUrl "/videos/" = false →
  JsString.includes "/video/upload/q_auto,f_auto/" videoUrl = false →
  JsString.includes ".mp4" videoUrl = false →
  getPosterFromVideo videoUrl = videoUrl.
Proof.
  intros Hlocal Hseg Hext. unfold getPosterFromVideo. rewrite Hlocal.
  rewrite (replace_absent _ _ videoUrl Hseg). by apply replace_absent.
Qed.

(** X3. A URL of the form base, upload segment, name, .mp4, in which no
    other upload segment starts before the segment and no other .mp4
    before the extension: the poster is base, the poster segment, name,
    .jpg. *)
Theorem getPosterFromVideo_upload (base name : string) :
  JsString.startsWith
    (base +:+ "/video/upload/q_auto,f_auto/" +:+ name +:+ ".mp4") "/videos/"
  = false →
  JsString.includes "/video/upload/q_auto,f_auto/"
                    (base +:+ "/video/upload/q_auto,f_auto") = false →
  JsString.includes ".mp4"
    (base +:+ "/video/upload/so_0,f_jpg,q_auto/" +:+ name +:+ ".mp") = false →
  getPosterFromVideo
    (base +:+ "/video/upload/q_auto,f_auto/" +:+ name +:+ ".mp4")
  = base +:+ "/video/upload/so_0,f_jpg,q_auto/" +:+ name +:+ ".jpg".
Proof.
  intros Hlocal Hseg Hext. unfold getPosterFromVideo. rewrite Hlocal.
  rewrite (replace_first "/video/upload/q_auto,f_auto/"
             "/video/upload/q_auto,f_auto" (Ascii.ascii_of_nat 47)
             "/video/upload/so_0,f_jpg,q_auto/" (name +:+ ".mp4")
             eq_refl base Hseg).
  pose proof (replace_first ".mp4" ".mp" (Ascii.ascii_of_nat 52) ".jpg" ""
                eq_refl
                (base +:+ "/video/upload/so_0,f_jpg,q_auto/" +:+ name)) as Hr.
  rewrite !append_assoc in Hr. specialize (Hr Hext).
  exact Hr.
Qed.

(** * More on the runs of the wizard *)

Section Sessions.

Variable businessTypes : list BusinessTypeConfig.
Variable getQuestionsForPath :
  option BusinessType → option GrowthStage → list Question.

#[local] Abbreviation questionsOf := (questionsOf getQuestionsForPath).
#[local] Abbreviation render := (render businessTypes getQuestionsForPath).
#[local] Abbreviation click := (click businessTypes getQuestionsForPath).
#[local] Abbreviation run := (run businessTypes getQuestionsForPath).
#[local] Abbreviation reachable := (reachable businessTypes getQuestionsForPath).

(** [handleAnswer] leaves the screen and the selections alone. *)
Lemma handleAnswer_selections r qs p w :
  let c' := component (handleAnswer r qs p w) in
  step c' = step (component w)
  ∧ selectedBusinessType c' = selectedBusinessType (component w)
  ∧ selectedGrowthStage c' = selectedGrowthStage (component w).
Proof.
  destruct (decide (currentQuestionIndex r + 1 < length qs)%nat).
  - by rewrite handleAnswer_more.
  - by rewrite handleAnswer_last.
Qed.

(** X4. Every click that is taken moves along an edge of the wizard:
    intro to business type, business type to growth stage, growth stage to
    the questions or back to business type, a question to a question or
    back to growth stage.  No screen is skipped and the intro is never
    shown again. *)
Theorem click_follows_edge (e : Event) (w w' : World) :
  click e w = Some w' →
  edge (step (component w)) (step (component w')) = true.
Proof.
  intros Hc. apply click_inv in Hc.
  destruct e; simpl in Hc.
  - destruct Hc as [Hs ->]. cbn. by rewrite Hs.
  - destruct Hc as (Hs & _ & ->). cbn. by rewrite Hs.
  - destruct Hc as (Hs & _ & ->). cbn. by rewrite Hs.
  - destruct Hc as [Hs ->]. cbn. by rewrite Hs.
  - destruct Hc as (Hs & _ & ->).
    destruct (handleAnswer_selections (component w)
                (questionsOf (component w)) pts w) as (-> & _).
    by rewrite Hs.
  - destruct Hc as (Hs & _ & ->). unfold goBack.
    case_decide; cbn; by rewrite Hs.
Qed.

Lemma click_selectionInv e w w' :
  click e w = Some w' →
  selectionInv businessTypes w → selectionInv businessTypes w'.
Proof.
  intros Hc (Hb & Hg & Hsb & Hsg). apply click_inv in Hc.
  destruct e; simpl in Hc.
  - destruct Hc as [Hs ->]. repeat split; cbn; try done.
    intros [?|?]; discriminate.
  - destruct Hc as (Hs & Hin & ->). repeat split; cbn; try done.
    intros b [= <-]. exact Hin.
  - destruct Hc as (Hs & Hin & ->). repeat split; cbn; try done.
    + intros g [= <-]. exact Hin.
    + intros _. apply Hsb. by left.
  - destruct Hc as [Hs ->]. repeat split; cbn; try done.
    intros [?|?]; discriminate.
  - destruct Hc as (Hs & _ & ->).
    destruct (handleAnswer_selections (component w)
                (questionsOf (component w)) pts w) as (Hs' & Hb' & Hg').
    unfold selectionInv. rewrite Hs', Hb', Hg'. done.
  - destruct Hc as (Hs & _ & ->). unfold goBack.
    case_decide; repeat split; cbn; try done.
    intros _. apply Hsb. by right.
Qed.

Lemma reachable_selectionInv w : reachable w → selectionInv businessTypes w.
Proof.
  apply reachable_invariant.
  - intros ls ss. repeat split; cbn; try done. intros [?|?]; discriminate.
  - apply click_selectionInv.
Qed.

(** X5. In every reachable state a recorded business type is an id of the
    catalog and a recorded growth stage is one of startup, growing and
    scaling; the growth-stage screen and the questions always have a
    business type, and the questions a growth stage, so the bank is only
    ever asked for a path made of two catalog ids. *)
Theorem selections_come_from_catalogs (w : World) :
  reachable w →
  let c := component w in
  (∀ b, selectedBusinessType c = Some b → b ∈ bt_id <$> businessTypes)
  ∧ (∀ g, selectedGrowthStage c = Some g →
          g = "startup" ∨ g = "growing" ∨ g = "scaling")
  ∧ (step c = growth_stage ∨ step c = questions →
     ∃ b, selectedBusinessType c = Some b)
  ∧ (step c = questions →
     ∃ b g, selectedBusinessType c = Some b ∧ selectedGrowthStage c = Some g
            ∧ questionsOf c = getQuestionsForPath (Some b) (Some g)).
Proof.
  intros Hr c. destruct (reachable_selectionInv w Hr) as (Hb & Hg & Hsb & Hsg).
  fold c in Hb, Hg, Hsb, Hsg. split; [exact Hb|]. split; [|split].
  - intros g Hsel. specialize (Hg g Hsel). cbn in Hg.
    apply elem_of_cons in Hg as [->|Hg]; [by left|].
    apply elem_of_cons in Hg as [->|Hg]; [by right; left|].
    apply elem_of_cons in Hg as [->|Hg]; [by right; right|].
    by apply elem_of_nil in Hg.
  - intros Hs. destruct (Hsb Hs) as [b Hsel]. by exists b.
  - intros Hs. destruct (Hsb (or_intror Hs)) as [b Hsel].
    destruct (Hsg Hs) as [g Hgsel]. exists b, g.
    unfold_questionsOf. by rewrite Hsel, Hgsel.
Qed.

(** X6. On every reachable growth-stage screen the header finds the
    selected business type: [selectedType] is an entry of the catalog whose
    id is the recorded selection. *)
Theorem selectedType_found (w : World) :
  reachable w →
  step (component w) = growth_stage →
  ∃ bt, selectedType businessTypes (component w) = Some bt
        ∧ bt ∈ businessTypes
        ∧ selectedBusinessType (component w) = Some (bt_id bt).
Proof.
  intros Hr Hs. destruct (reachable_selectionInv w Hr) as (Hb & _ & Hsb & _).
  destruct (Hsb (or_introl Hs)) as [b Hsel]. specialize (Hb b Hsel).
  apply list_elem_of_fmap in Hb as (bt0 & -> & Hin0).
  unfold selectedType.
  destruct (List.find _ businessTypes) as [bt|] eqn:Hfind.
  - apply List.find_some in Hfind as [Hin Hid].
    apply bool_decide_eq_true in Hid.
    exists bt. split; [reflexivity|]. split; [by apply list_elem_of_In|].
    by rewrite Hid.
  - apply list_elem_of_In in Hin0.
    pose proof (List.find_none _ _ Hfind bt0 Hin0) as Hno. simpl in Hno.
    apply bool_decide_eq_false in Hno. by rewrite Hsel in Hno.
Qed.

(** *** The recorded points *)

Lemma reachable_answersInv w : reachable w → answersInv getQuestionsForPath w.
Proof.
  apply reachable_invariant.
  - intros ls ss. split; cbn; [lia|discriminate].
  - apply click_answersInv.
Qed.

(** Writing a number into a list of numbers, at most one past its end. *)
Lemma assign_numbers (ps : list Z) (i : nat) (p : Z) :
  (i ≤ length ps)%nat →
  Js.assign (Js.spread (Js.number <$> ps)) i (Js.number p)
  = Js.number <$> (take i ps ++ p :: drop (S i) ps).
Proof.
  intros Hi. rewrite spread_numbers. unfold Js.assign. rewrite length_fmap.
  case_decide as Hlt.
  - rewrite <- list_fmap_insert. f_equal. by apply insert_take_drop.
  - assert (i = length ps) as -> by lia.
    rewrite Nat.sub_diag, firstn_all, drop_ge by lia. simpl.
    by rewrite fmap_app.
Qed.

Lemma click_recordedInv e w w' :
  click e w = Some w' →
  answersInv getQuestionsForPath w →
  recordedInv getQuestionsForPath w → recordedInv getQuestionsForPath w'.
Proof.
  intros Hc [Hle _] [[ps Hps] Hoff]. apply click_inv in Hc.
  destruct e; simpl in Hc.
  - destruct Hc as [Hs ->]. split; cbn; [by exists ps|done].
  - destruct Hc as (Hs & _ & ->). split; cbn; [by exists ps|done].
  - destruct Hc as (Hs & _ & ->). split; cbn; [by exists []|].
    intros _ j p Hj. by rewrite lookup_nil in Hj.
  - destruct Hc as [Hs ->]. split; cbn; [by exists ps|done].
  - destruct Hc as (Hs & (q & Hlook & Hq) & ->).
    destruct (handleAnswer_selections (component w)
                (questionsOf (component w)) pts w) as (Hs' & Hb' & Hg').
    unfold recordedInv. rewrite handleAnswer_answers. unfold_questionsOf.
    rewrite Hb', Hg'. rewrite Hps in Hle |- *. rewrite length_fmap in Hle.
    split; [rewrite assign_numbers by done; by eexists|].
    intros _ j p Hj.
    destruct (decide (j = currentQuestionIndex (component w))) as [->|Hne].
    + rewrite assign_lookup_eq in Hj. injection Hj as <-. by exists q.
    + assert (Hlt : (j < length (Js.spread (Js.number <$> ps)))%nat).
      { apply lookup_lt_Some in Hj.
        rewrite assign_length, spread_length, length_fmap in Hj.
        rewrite spread_length, length_fmap. lia. }
      rewrite assign_lookup_ne in Hj by done.
      rewrite spread_numbers, <- Hps in Hj. by apply Hoff.
  - destruct Hc as (Hs & _ & ->). unfold goBack.
    case_decide; split; cbn; try (by exists ps); done.
Qed.

Lemma reachable_recordedInv w : reachable w → recordedInv getQuestionsForPath w.
Proof.
  intros Hr.
  cut (answersInv getQuestionsForPath w ∧ recordedInv getQuestionsForPath w);
    [by intros [_ ?]|].
  revert w Hr. apply reachable_invariant.
  - intros ls ss. split; [split; cbn; [lia|discriminate]|].
    split; cbn; [by exists []|discriminate].
  - intros e w w' Hc [Ha Hrec]. split.
    + by eapply click_answersInv.
    + by eapply click_recordedInv.
Qed.

(** X7. In every reachable state the recorded list holds numbers only (no
    hole, no undefined), and while the questions are shown the number in
    slot j is the point value of an option of question j of the selected
    path. *)
Theorem recorded_points_are_offered (w : World) :
  reachable w →
  let c := component w in
  ∃ ps, answers c = Js.number <$> ps
        ∧ (step c = questions →
           ∀ j p, ps !! j = Some p →
                  ∃ q, questionsOf c !! j = Some q
                       ∧ p ∈ points <$> options q).
Proof.
  intros Hr c. destruct (reachable_recordedInv w Hr) as [[ps Hps] Hoff].
  fold c in Hps, Hoff. exists ps. split; [exact Hps|].
  intros Hs j p Hj. apply (Hoff Hs j p).
  by rewrite Hps, list_lookup_fmap, Hj.
Qed.

(** *** Storage and component *)

(** Closes a goal whose hypothesis [H] contradicts what the log says about
    the hand-off. *)
Ltac handedOff_contra H :=
  unfold handedOff in *; cbn in H; rewrite ?existsb_app in H; simpl in H;
  rewrite ?orb_false_r, ?orb_true_r in H; congruence.

Lemma assign_nonempty (a : list Js.Elem) (i : nat) (v : Js.Elem) :
  Js.assign a i v ≠ [].
Proof.
  intros Hnil. pose proof (assign_lookup_eq a i v) as Hl.
  by rewrite Hnil, lookup_nil in Hl.
Qed.

Lemma click_storageInv e w w' :
  click e w = Some w' → storageInv w → storageInv w'.
Proof.
  intros Hc Hinv. apply click_inv in Hc.
  destruct e; simpl in Hc.
  - destruct Hc as [Hs ->]. intros Hq. discriminate.
  - destruct Hc as (Hs & _ & ->). intros Hq. discriminate.
  - destruct Hc as (Hs & _ & ->). intros _. cbn -[stringify_path].
    split; [|split].
    + exists id. split; [reflexivity|]. apply lookup_insert_eq.
    + rewrite lookup_insert_ne by done. apply lookup_delete_eq.
    + intros _. rewrite lookup_insert_ne by done.
      rewrite lookup_delete_ne by done. apply lookup_delete_eq.
  - destruct Hc as [Hs ->]. intros Hq. discriminate.
  - destruct Hc as (Hs & _ & ->).
    destruct (Hinv Hs) as ((g & Hg & Hpath) & _ & Hscore).
    destruct (decide (currentQuestionIndex (component w) + 1
                      < length (questionsOf (component w)))%nat) as [Hlt|Hge].
    + rewrite handleAnswer_more by done. intros _. cbn -[stringify_path].
      split; [|split].
      * exists g. split; [exact Hg|]. by rewrite lookup_insert_ne.
      * rewrite decide_False by apply assign_nonempty. apply lookup_insert_eq.
      * intros Hoff. rewrite lookup_insert_ne by done. apply Hscore.
        unfold handedOff in *. cbn in Hoff. rewrite existsb_app in Hoff.
        by apply orb_false_iff in Hoff as [? _].
    + rewrite handleAnswer_last by done. intros _. cbn -[stringify_path].
      split; [|split].
      * exists g. split; [exact Hg|]. by rewrite !lookup_insert_ne.
      * rewrite decide_False by apply assign_nonempty.
        rewrite lookup_insert_ne by done. apply lookup_insert_eq.
      * intros Hfalse. handedOff_contra Hfalse.
  - destruct Hc as (Hs & _ & ->). unfold goBack. case_decide.
    + intros _. specialize (Hinv Hs). cbn -[stringify_path].
      destruct Hinv as (Hp & Ha & Hn).
      split; [exact Hp|]. split; [exact Ha|]. exact Hn.
    + intros Hq. discriminate.
Qed.

Lemma reachable_storageInv w : reachable w → storageInv w.
Proof.
  apply reachable_invariant.
  - intros ls ss Hq. discriminate.
  - apply click_storageInv.
Qed.

Lemma growthStage_plain (g : GrowthStage) :
  g ∈ gs_id <$> growthStages → plain g = true.
Proof.
  intros Hg. cbn in Hg.
  repeat (apply elem_of_cons in Hg as [->|Hg]; [reflexivity|]).
  by apply elem_of_nil in Hg.
Qed.

(** X8. While the questions are shown in a reachable state, the storage
    mirrors the component.  The path key holds the JSON of the two
    selections; for a business type whose id needs no escape this is the
    object with the keys businessType and growthStage and the two ids
    between double quotes.  The answers key holds the JSON of the recorded
    list (and is absent while nothing is recorded), and the score key is
    absent as long as nothing was handed off, so that a score of an earlier
    visit is never stored next to the answers of this one. *)
Theorem storage_mirrors_component (w : World) :
  reachable w →
  step (component w) = questions →
  let c := component w in
  (∃ b g, selectedBusinessType c = Some b
          ∧ selectedGrowthStage c = Some g
          ∧ localStorage w !! "focusFoundersQuizPath"
            = Some (stringify_path (Some b) g)
          ∧ (plain b = true →
             localStorage w !! "focusFoundersQuizPath"
             = Some (pathJson (Some b) g)))
  ∧ (localStorage w !! "focusFoundersQuizAnswers"
     = if decide (answers c = []) then None
       else Some (Js.stringify_array (answers c)))
  ∧ (handedOff w = false → localStorage w !! "focusFoundersQuizScore" = None).
Proof.
  intros Hr Hs c.
  destruct (reachable_storageInv w Hr Hs) as ((g & Hg & Hp) & Ha & Hn).
  destruct (reachable_selectionInv w Hr) as (_ & Hgs & Hsb & _).
  destruct (Hsb (or_intror Hs)) as [b Hb]. fold c in Hb, Hg, Hp.
  split; [|done].
  exists b, g. rewrite Hb in Hp. split; [exact Hb|]. split; [exact Hg|].
  split; [exact Hp|]. intros Hplain. rewrite Hp. f_equal.
  apply stringify_path_plain.
  - by intros id [= <-].
  - apply growthStage_plain, Hgs. exact Hg.
Qed.

(** *** The hand-off *)

(** What the answer at the last question index leaves, in a reachable
    state: one recorded point per question, each offered by its question,
    the score key with the printed sum and the answers key with the JSON of
    the points. *)
Lemma last_answer_summary w q pts :
  reachable w →
  step (component w) = questions →
  (currentQuestionIndex (component w) + 1)%nat
  = length (questionsOf (component w)) →
  questionsOf (component w) !! currentQuestionIndex (component w) = Some q →
  pts ∈ points <$> options q →
  ∃ w' ps, click (ClickOption pts) w = Some w'
           ∧ handedOff w' = true
           ∧ answers (component w') = Js.number <$> ps
           ∧ ps !! currentQuestionIndex (component w) = Some pts
           ∧ Forall2 offers (questionsOf (component w)) ps
           ∧ localStorage w' !! "focusFoundersQuizScore"
             = Some (Js.toString (Js.reduce_sum (Js.number <$> ps)))
           ∧ localStorage w' !! "focusFoundersQuizAnswers"
             = Some (Js.stringify_array (Js.number <$> ps)).
Proof.
  intros Hr Hs Hlast Hlook Hin.
  pose proof (click_option businessTypes getQuestionsForPath
                w q pts Hs Hlook Hin) as Hc.
  pose proof (reachable_answersInv w Hr) as Ha.
  pose proof (reachable_recordedInv w Hr) as Hrec.
  pose proof (click_recordedInv _ _ _ Hc Ha Hrec) as [[ps Hps] Hopt].
  pose proof (click_answersInv _ _ _ _ _ Hc Ha) as [_ Hlen'].
  destruct Ha as [Hle Hlen]. specialize (Hlen Hs).
  revert Hc Hps Hopt Hlen'.
  rewrite handleAnswer_last by lia. cbn. intros Hc Hps Hopt Hlen'.
  specialize (Hopt Hs). specialize (Hlen' Hs). unfold_questionsOf. cbn in *.
  assert (Hn : length ps = length (getQuestionsForPath
                 (selectedBusinessType (component w))
                 (selectedGrowthStage (component w)))).
  { pose proof (f_equal length Hps) as Hl. rewrite length_fmap in Hl.
    rewrite <- Hl. rewrite assign_length in Hlen' |- *. lia. }
  eexists _, ps. split; [exact Hc|]. cbn.
  split; [unfold handedOff; cbn; rewrite existsb_app; simpl; apply orb_true_r|].
  split; [exact Hps|].
  split.
  { pose proof (assign_lookup_eq (Js.spread (answers (component w)))
        (currentQuestionIndex (component w)) (Js.number pts)) as Hl.
    rewrite Hps, list_lookup_fmap in Hl.
    destruct (ps !! currentQuestionIndex (component w)); [|discriminate].
    simpl in Hl. congruence. }
  split.
  { apply Forall2_same_length_lookup. split; [by rewrite Hn|].
    intros j q' p Hq' Hp.
    destruct (Hopt j p) as (q'' & Hq'' & Hoffers).
    { by rewrite Hps, list_lookup_fmap, Hp. }
    congruence. }
  rewrite <- Hps.
  split; [apply lookup_insert_eq|].
  rewrite lookup_insert_ne by done. apply lookup_insert_eq.
Qed.

(** Points bounded by [bound] in absolute value, one per question. *)
Lemma offered_points_safe (qs : list Question) (ps : list Z) (bound : Z) :
  (∀ q o, q ∈ qs → o ∈ options q → (Z.abs (points o) ≤ bound)%Z) →
  Forall2 offers qs ps →
  (total (Z.abs <$> ps) ≤ Z.of_nat (length qs) * bound)%Z.
Proof.
  intros Hb Hall. induction Hall as [|q p qs ps Hq _ IH].
  - simpl. lia.
  - rewrite fmap_cons, total_cons. cbn [length]. rewrite Nat2Z.inj_succ.
    apply list_elem_of_fmap in Hq as (o & -> & Ho).
    assert (Z.abs (points o) ≤ bound)%Z by (apply (Hb q o); [left|exact Ho]).
    assert (total (Z.abs <$> ps) ≤ Z.of_nat (length qs) * bound)%Z.
    { apply IH. intros q' o' Hq' Ho'. apply (Hb q' o'); [by right|exact Ho']. }
    lia.
Qed.

(** X9. In every reachable state, after whatever answers, steps back and
    new selections, the answer at the last question index hands off with
    one recorded point per question of the selected path, each the point
    value of an option of its question; when the points offered by the
    path are bounded so that their sums are safe integers, the stored score
    is the decimal string of the sum of the recorded points and the stored
    answers are the JSON array of their decimals. *)
Theorem handOff_score_is_sum_of_final_points
    (w : World) (q : Question) (pts bound : Z) :
  reachable w →
  step (component w) = questions →
  (currentQuestionIndex (component w) + 1)%nat
  = length (questionsOf (component w)) →
  questionsOf (component w) !! currentQuestionIndex (component w) = Some q →
  pts ∈ points <$> options q →
  (∀ q o, q ∈ questionsOf (component w) → o ∈ options q →
          (Z.abs (points o) ≤ bound)%Z) →
  (Z.of_nat (length (questionsOf (component w))) * bound
   ≤ Js.MAX_SAFE_INTEGER)%Z →
  ∃ w' ps, click (ClickOption pts) w = Some w'
           ∧ handedOff w' = true
           ∧ answers (component w') = Js.number <$> ps
           ∧ ps !! currentQuestionIndex (component w) = Some pts
           ∧ Forall2 (λ q p, p ∈ points <$> options q)
                     (questionsOf (component w)) ps
           ∧ localStorage w' !! "focusFoundersQuizScore"
             = Some (pretty (total ps))
           ∧ localStorage w' !! "focusFoundersQuizAnswers"
             = Some ("[" +:+ String.concat "," (pretty <$> ps) +:+ "]").
Proof.
  intros Hr Hs Hlast Hlook Hin Hbound Hsafe.
  destruct (last_answer_summary w q pts Hr Hs Hlast Hlook Hin)
    as (w' & ps & Hc & Hoff & Hps & Hp & Hall & Hsc & Han).
  pose proof (offered_points_safe _ ps bound Hbound Hall) as Hsum.
  assert (Hsafe' : (total (Z.abs <$> ps) ≤ Js.MAX_SAFE_INTEGER)%Z) by lia.
  exists w', ps. repeat (split; [done|]).
  rewrite reduce_sum_numbers in Hsc by exact Hsafe'.
  rewrite toString_safe in Hsc by (by apply total_safe).
  rewrite stringify_array_safe in Han by (by apply summands_safe).
  done.
Qed.

Lemma total_bounds (lo hi : Z) (ps : list Z) :
  Forall (λ p, (lo ≤ p ≤ hi)%Z) ps →
  (Z.of_nat (length ps) * lo ≤ total ps ≤ Z.of_nat (length ps) * hi)%Z.
Proof.
  induction 1 as [|p ps Hp _ IH]; simpl; [lia|].
  rewrite Nat2Z.inj_succ. lia.
Qed.

(** X10. If every option of every question of the selected path has a
    point value between lo and hi, and N times the larger of their
    absolute values is a safe integer for the N questions of the path,
    then the score that the answer at the last question index stores, in
    any reachable state, is the decimal string of an integer between
    N * lo and N * hi. *)
Theorem handOff_score_within_bounds
    (w : World) (q : Question) (pts lo hi : Z) :
  reachable w →
  step (component w) = questions →
  (currentQuestionIndex (component w) + 1)%nat
  = length (questionsOf (component w)) →
  questionsOf (component w) !! currentQuestionIndex (component w) = Some q →
  pts ∈ points <$> options q →
  (∀ q o, q ∈ questionsOf (component w) → o ∈ options q →
          (lo ≤ points o ≤ hi)%Z) →
  (Z.of_nat (length (questionsOf (component w))) * Z.max (Z.abs lo) (Z.abs hi)
   ≤ Js.MAX_SAFE_INTEGER)%Z →
  ∃ w' score, click (ClickOption pts) w = Some w'
              ∧ localStorage w' !! "focusFoundersQuizScore"
                = Some (pretty score)
              ∧ (Z.of_nat (length (questionsOf (component w))) * lo ≤ score)%Z
              ∧ (score ≤ Z.of_nat (length (questionsOf (component w))) * hi)%Z.
Proof.
  intros Hr Hs Hlast Hlook Hin Hrange Hsafe.
  destruct (last_answer_summary w q pts Hr Hs Hlast Hlook Hin)
    as (w' & ps & Hc & _ & _ & _ & Hall & Hsc & _).
  assert (Hsum : (total (Z.abs <$> ps)
                  ≤ Z.of_nat (length (questionsOf (component w)))
                    * Z.max (Z.abs lo) (Z.abs hi))%Z).
  { apply offered_points_safe; [|exact Hall].
    intros q' o Hq' Ho. specialize (Hrange q' o Hq' Ho). lia. }
  assert (Hsafe' : (total (Z.abs <$> ps) ≤ Js.MAX_SAFE_INTEGER)%Z) by lia.
  rewrite reduce_sum_numbers in Hsc by exact Hsafe'.
  rewrite toString_safe in Hsc by (by apply total_safe).
  exists w', (total ps). split; [exact Hc|]. split; [exact Hsc|].
  rewrite (Forall2_length _ _ _ Hall).
  apply total_bounds. apply Forall_lookup. intros j p Hp.
  destruct (Forall2_lookup_r _ _ _ _ _ Hall Hp) as (q' & Hq' & Hoffers).
  apply list_elem_of_fmap in Hoffers as (o & -> & Ho).
  apply (Hrange q' o); [|exact Ho].
  by eapply list_elem_of_lookup_2.
Qed.

(** *** Correcting an answer *)

(** X11. In a reachable state of the question sequence at an index i + 1,
    before the hand-off: stepping back and answering question i with an
    offered point value p brings the wizard back to index i + 1 with p in
    slot i; every other recorded point, the selections and the other
    storage keys are as before, and the answers key holds the new list. *)
Theorem back_then_answer_overwrites (w : World) (i : nat) (q : Question) (p : Z) :
  reachable w →
  handedOff w = false →
  step (component w) = questions →
  currentQuestionIndex (component w) = S i →
  questionsOf (component w) !! i = Some q →
  p ∈ points <$> options q →
  ∃ w', run [ClickPrevious; ClickOption p] w = Some w'
        ∧ step (component w') = questions
        ∧ currentQuestionIndex (component w') = S i
        ∧ answers (component w') = <[i := Js.number p]> (answers (component w))
        ∧ length (answers (component w')) = length (answers (component w))
        ∧ selectedBusinessType (component w')
          = selectedBusinessType (component w)
        ∧ selectedGrowthStage (component w') = selectedGrowthStage (component w)
        ∧ localStorage w'
          = <["focusFoundersQuizAnswers" :=
                Js.stringify_array (answers (component w'))]> (localStorage w)
        ∧ handedOff w' = false.
Proof.
  intros Hr Hoff Hs Hi Hq Hp.
  destruct (reachable_indexInv _ _ w Hr) as [_ Hrange].
  destruct (Hrange Hs) as [Hzero|Hlt]; [congruence|]. rewrite Hi in Hlt.
  destruct (reachable_answersInv w Hr) as [Hle _]. rewrite Hi in Hle.
  destruct (reachable_recordedInv w Hr) as [[ps Hps] _].
  destruct (lookup_lt_is_Some_2 _ _ Hlt) as [q' Hq'].
  assert (Hback : click ClickPrevious w = Some (goBack (component w) w)).
  { unfold_click. unfold_render. rewrite Hs.
    unfold_questionsOf. rewrite Hi, Hq'. reflexivity. }
  simpl. rewrite Hback. simpl.
  unfold goBack. rewrite decide_True by lia. rewrite Hi.
  replace (S i - 1)%nat with i by lia.
  rewrite (click_option _ _ _ q p); [|exact Hs|exact Hq|exact Hp].
  simpl. rewrite handleAnswer_more by (cbn; unfold_questionsOf; cbn; lia).
  cbn. eexists. split; [reflexivity|]. cbn.
  assert (Hassign : Js.assign (Js.spread (answers (component w))) i (Js.number p)
                    = <[i := Js.number p]> (answers (component w))).
  { rewrite Hps, spread_numbers. unfold Js.assign.
    rewrite Hps, length_fmap in Hle. rewrite length_fmap.
    by rewrite decide_True by lia. }
  unfold Js.spread in Hassign. rewrite Hassign. repeat split; try done.
  - lia.
  - by rewrite length_insert.
  - unfold handedOff in *. rewrite existsb_app, Hoff. reflexivity.
Qed.

(** *** The progress bar and the counter *)

Lemma progress_range (i n : nat) :
  (i < n)%nat →
  (0 < progress i n)%Q
  ∧ (progress i n <= 100)%Q
  ∧ ((progress i n == 100)%Q ↔ (i + 1)%nat = n).
Proof.
  intros Hlt. destruct n as [|n]; [lia|].
  unfold progress. change (Z.of_nat (S n)) with (Z.pos (Pos.of_succ_nat n)).
  unfold Qlt, Qle, Qeq. cbn.
  rewrite ?Pos.mul_1_l, ?Pos.mul_1_r.
  pose proof (Zpos_P_of_succ_nat n) as Hn. lia.
Qed.

(** X12. In every render of a question, the counter "position of total"
    satisfies 1 <= position <= total, the progress value is above 0 and at
    most 100, and it is 100 exactly on the last question. *)
Theorem progress_within_bounds
    (c : Component) (position count : nat) (bar : Q) (q : Question) :
  render c = Some (QuestionView position count bar q) →
  (1 ≤ position ≤ count)%nat
  ∧ (0 < bar)%Q
  ∧ (bar <= 100)%Q
  ∧ ((bar == 100)%Q ↔ position = count).
Proof.
  unfold_render. destruct (step c); try discriminate.
  destruct (questionsOf c !! currentQuestionIndex c) as [q'|] eqn:Hlook;
    [|discriminate].
  intros [= <- <- <- <-]. apply lookup_lt_Some in Hlook.
  split; [lia|]. by apply progress_range.
Qed.

(** *** What a run does not depend on and does not touch *)

(** The handler behind a button treats the component and the log of two
    worlds alike when the worlds agree on them. *)
Lemma dispatch_sameSession c v e a w1 w2 :
  dispatch getQuestionsForPath c v e = Some a →
  sameSession w1 w2 → sameSession (a w1) (a w2).
Proof.
  intros Hd [Hc Hl].
  destruct v, e; simpl in Hd; try discriminate;
    try (case_decide; [|discriminate]); injection Hd as <-.
  - split; cbn; congruence.
  - split; cbn; congruence.
  - split; cbn -[stringify_path]; congruence.
  - split; cbn; congruence.
  - unfold handleAnswer, seq. case_decide; split; cbn; congruence.
  - unfold goBack. case_decide; split; cbn; congruence.
Qed.

Lemma click_sameSession e w1 w2 w1' :
  sameSession w1 w2 →
  click e w1 = Some w1' →
  ∃ w2', click e w2 = Some w2' ∧ sameSession w1' w2'.
Proof.
  intros [Hc Hl]. unfold_click. rewrite <- Hc.
  destruct (render (component w1)) as [v|]; [|discriminate]. simpl.
  destruct (dispatch getQuestionsForPath (component w1) v e) as [a|] eqn:Hd;
    [|discriminate].
  simpl. intros [= <-]. exists (a w2). split; [reflexivity|].
  by eapply dispatch_sameSession.
Qed.

Lemma run_sameSession es : ∀ w1 w2 w1',
  sameSession w1 w2 →
  run es w1 = Some w1' →
  ∃ w2', run es w2 = Some w2' ∧ sameSession w1' w2'.
Proof.
  induction es as [|e es IH]; intros w1 w2 w1' Hsame Hrun; simpl in *.
  - injection Hrun as <-. by exists w2.
  - destruct (click e w1) as [w1a|] eqn:Hc; [|discriminate]. simpl in Hrun.
    destruct (click_sameSession e w1 w2 w1a Hsame Hc) as (w2a & -> & Hsame').
    simpl. by eapply IH.
Qed.

(** X13. The wizard never reads the storage: the same clicks on a page
    mounted over any other content of localStorage and sessionStorage are
    taken in the same way and lead to the same component state and the
    same effects.  In particular answers and a score left by an earlier
    visit are not resumed. *)
Theorem run_ignores_stored_data
    (ls ss ls' ss' : gmap string string) (es : list Event) (w : World) :
  run es (mount ls ss) = Some w →
  ∃ w', run es (mount ls' ss') = Some w'
        ∧ component w' = component w
        ∧ log w' = log w.
Proof.
  intros Hrun.
  destruct (run_sameSession es (mount ls ss) (mount ls' ss') w) as (w' & Hrun' & Hc & Hl);
    [by split | exact Hrun |].
  by exists w'.
Qed.

Lemma click_other_keys e w w' (k : string) :
  click e w = Some w' →
  k ∉ quizKeys →
  localStorage w' !! k = localStorage w !! k.
Proof.
  intros Hc Hk. apply click_inv in Hc.
  assert (Hp : k ≠ "focusFoundersQuizPath") by (intros ->; apply Hk; set_solver).
  assert (Ha : k ≠ "focusFoundersQuizAnswers") by (intros ->; apply Hk; set_solver).
  assert (Hs : k ≠ "focusFoundersQuizScore") by (intros ->; apply Hk; set_solver).
  destruct e; simpl in Hc.
  - by destruct Hc as [_ ->].
  - by destruct Hc as (_ & _ & ->).
  - destruct Hc as (_ & _ & ->). cbn -[stringify_path].
    rewrite lookup_insert_ne by done. by rewrite !lookup_delete_ne.
  - by destruct Hc as [_ ->].
  - destruct Hc as (_ & _ & ->).
    destruct (decide (currentQuestionIndex (component w) + 1
                      < length (questionsOf (component w)))%nat).
    + rewrite handleAnswer_more by done. cbn. by rewrite lookup_insert_ne.
    + rewrite handleAnswer_last by done. cbn. by rewrite !lookup_insert_ne.
  - destruct Hc as (_ & _ & ->). unfold goBack. by case_decide.
Qed.

(** X14. A run touches no other key of localStorage than the path, answers
    and score keys of the quiz: every other entry of the origin is after
    the run what it was at the mount. *)
Theorem run_keeps_other_keys
    (ls ss : gmap string string) (es : list Event) (w : World) (k : string) :
  run es (mount ls ss) = Some w →
  k ∉ quizKeys →
  localStorage w !! k = ls !! k.
Proof.
  intros Hrun Hk.
  apply (run_invariant businessTypes getQuestionsForPath
           (λ w, localStorage w !! k = ls !! k))
    with (es := es) (w := mount ls ss); [|exact Hrun|reflexivity].
  intros e w1 w2 Hc Hinv. by rewrite (click_other_keys e w1 w2 k Hc Hk).
Qed.

(** *** Whole runs *)

Lemma run_app es1 : ∀ es2 w,
  run (es1 ++ es2) w = run es1 w ≫= run es2.
Proof.
  induction es1 as [|e es1 IH]; intros es2 w; simpl; [reflexivity|].
  destruct (click e w) as [w1|]; simpl; [apply IH | reflexivity].
Qed.

(** The clicks from the intro to the first question. *)
Lemma run_to_first_question ls ss b g :
  b ∈ bt_id <$> businessTypes →
  g ∈ gs_id <$> growthStages →
  run [ClickStart; ClickBusinessType b; ClickGrowthStage g] (mount ls ss)
  = Some (let w1 := selectBusinessType b (startQuiz (mount ls ss)) in
          selectGrowthStage (component w1) g w1).
Proof.
  intros Hb Hg. cbn -[growthStages selectGrowthStage].
  unfold_click. cbn -[growthStages selectGrowthStage].
  rewrite decide_True by exact Hb. cbn -[growthStages selectGrowthStage].
  unfold_click. cbn -[growthStages selectGrowthStage].
  rewrite decide_True by exact Hg. reflexivity.
Qed.

(** Answers keep the selections and the path key. *)
Lemma run_options_frame ps : ∀ w w',
  run (ClickOption <$> ps) w = Some w' →
  selectedBusinessType (component w') = selectedBusinessType (component w)
  ∧ selectedGrowthStage (component w') = selectedGrowthStage (component w)
  ∧ localStorage w' !! "focusFoundersQuizPath"
    = localStorage w !! "focusFoundersQuizPath".
Proof.
  induction ps as [|p ps IH]; intros w w' Hrun; simpl in Hrun.
  - by injection Hrun as <-.
  - destruct (click (ClickOption p) w) as [w1|] eqn:Hc; [|discriminate].
    simpl in Hrun. destruct (IH w1 w' Hrun) as (-> & -> & ->).
    apply click_inv in Hc as (_ & _ & ->).
    destruct (handleAnswer_selections (component w)
                (questionsOf (component w)) p w) as (_ & -> & ->).
    split; [reflexivity|]. split; [reflexivity|].
    destruct (decide (currentQuestionIndex (component w) + 1
                      < length (questionsOf (component w)))%nat).
    + rewrite handleAnswer_more by done. cbn. by rewrite lookup_insert_ne.
    + rewrite handleAnswer_last by done. cbn. by rewrite !lookup_insert_ne.
Qed.

(** X15. From a freshly mounted page, over any stored data: starting,
    choosing a business type and a growth stage of the catalogs whose path
    has questions, and answering every question with one of its options is
    a run that is taken to the end.  When the absolute values of the chosen
    points sum to a safe integer, it hands off with the score key holding
    the decimal string of their sum and the answers key the JSON array of
    their decimals; the path key holds the JSON of the chosen path, which
    for a business type whose id needs no escape is the object with the
    keys businessType and growthStage and the two ids between double
    quotes; sessionStorage is as it was. *)
Theorem run_to_completion
    (ls ss : gmap string string) (b : BusinessType) (g : GrowthStage)
    (ps : list Z) :
  b ∈ bt_id <$> businessTypes →
  g ∈ gs_id <$> growthStages →
  Forall2 (λ q p, p ∈ points <$> options q)
          (getQuestionsForPath (Some b) (Some g)) ps →
  ps ≠ [] →
  (total (Z.abs <$> ps) ≤ Js.MAX_SAFE_INTEGER)%Z →
  ∃ w, run ([ClickStart; ClickBusinessType b; ClickGrowthStage g]
            ++ (ClickOption <$> ps)) (mount ls ss) = Some w
       ∧ handedOff w = true
       ∧ localStorage w !! "focusFoundersQuizScore" = Some (pretty (total ps))
       ∧ localStorage w !! "focusFoundersQuizAnswers"
         = Some ("[" +:+ String.concat "," (pretty <$> ps) +:+ "]")
       ∧ localStorage w !! "focusFoundersQuizPath"
         = Some (stringify_path (Some b) g)
       ∧ (plain b = true →
          localStorage w !! "focusFoundersQuizPath" = Some (pathJson (Some b) g))
       ∧ sessionStorage w = ss.
Proof.
  intros Hb Hg Hopts Hne Hsafe.
  rewrite run_app, (run_to_first_question ls ss b g Hb Hg). simpl mbind.
  match goal with |- ∃ w, run _ ?w0 = _ ∧ _ => set (w3 := w0) end.
  destruct (answer_remaining businessTypes getQuestionsForPath ps [] w3)
    as (w & Hrun & _ & Han & Hsc & Hoff); try done.
  exists w. split; [exact Hrun|]. split; [exact Hoff|].
  split; [exact Hsc|].
  split; [by rewrite <- (stringify_array_safe ps (summands_safe ps Hsafe))|].
  destruct (run_options_frame ps w3 w Hrun) as (_ & _ & Hpath).
  assert (Hstored : localStorage w !! "focusFoundersQuizPath"
                    = Some (stringify_path (Some b) g)).
  { rewrite Hpath. apply lookup_insert_eq. }
  split; [exact Hstored|]. split.
  { intros Hplain. rewrite Hstored. f_equal. apply stringify_path_plain.
    - by intros id [= <-].
    - by apply growthStage_plain. }
  assert (Hss : ∀ es w1 w2, run es w1 = Some w2 →
                             sessionStorage w2 = sessionStorage w1).
  { intros es w1 w2 Hr.
    apply (run_invariant businessTypes getQuestionsForPath
             (λ w, sessionStorage w = sessionStorage w1))
      with (es := es) (w := w1); [|exact Hr|reflexivity].
    intros e wa wb Hc Hinv.
    apply click_effects in Hc as [-> _]. exact Hinv. }
  by rewrite (Hss _ _ _ Hrun).
Qed.

(** X16. From a question at index i that renders, before the hand-off,
    i + 1 clicks on Previous lead to the growth-stage screen; the recorded
    answers, both selections, the storage and the log are what they were,
    and the index is 0. *)
Theorem previous_all_the_way (i : nat) : ∀ (w : World),
  handedOff w = false →
  step (component w) = questions →
  currentQuestionIndex (component w) = i →
  (i < length (questionsOf (component w)))%nat →
  ∃ w', run (replicate (S i) ClickPrevious) w = Some w'
        ∧ step (component w') = growth_stage
        ∧ currentQuestionIndex (component w') = 0%nat
        ∧ answers (component w') = answers (component w)
        ∧ selectedBusinessType (component w')
          = selectedBusinessType (component w)
        ∧ selectedGrowthStage (component w') = selectedGrowthStage (component w)
        ∧ localStorage w' = localStorage w
        ∧ sessionStorage w' = sessionStorage w
        ∧ log w' = log w.
Proof.
  induction i as [|i IH]; intros w Hoff Hs Hi Hlt.
  - destruct (lookup_lt_is_Some_2 _ _ Hlt) as [q Hq].
    assert (Hback : click ClickPrevious w = Some (goBack (component w) w)).
    { unfold_click. unfold_render. rewrite Hs.
      unfold_questionsOf. rewrite Hi, Hq. reflexivity. }
    simpl. rewrite Hback. simpl. eexists. split; [reflexivity|].
    unfold goBack. rewrite decide_False by lia. cbn. by rewrite Hi.
  - destruct (lookup_lt_is_Some_2 _ _ Hlt) as [q Hq].
    assert (Hback : click ClickPrevious w = Some (goBack (component w) w)).
    { unfold_click. unfold_render. rewrite Hs.
      unfold_questionsOf. rewrite Hi, Hq. reflexivity. }
    assert (Hgo : goBack (component w) w = setCurrentQuestionIndex i w).
    { unfold goBack. rewrite decide_True by lia. rewrite Hi.
      by replace (S i - 1)%nat with i by lia. }
    rewrite Hgo in Hback.
    destruct (IH (setCurrentQuestionIndex i w))
      as (w' & Hrun & Hs' & Hi' & Ha & Hb & Hg & Hl & Hss & Hlog).
    + exact Hoff.
    + exact Hs.
    + reflexivity.
    + unfold_questionsOf. cbn. lia.
    + exists w'. split; [|done].
      change (replicate (S (S i)) ClickPrevious)
        with (ClickPrevious :: replicate (S i) ClickPrevious).
      change (click ClickPrevious w ≫= run (replicate (S i) ClickPrevious)
              = Some w').
      rewrite Hback. exact Hrun.
Qed.

End Sessions.

(** * The component on the sample bank *)

Lemma atFirstQuestion_reachable :
  run sampleBusinessTypes sampleBank toFirstQuestion (mount ∅ ∅)
  = Some atFirstQuestion.
Proof. vm_compute. reflexivity. Qed.

Lemma afterScenario_reachable :
  run sampleBusinessTypes sampleBank scenario (mount ∅ ∅) = Some afterScenario.
Proof. vm_compute. reflexivity. Qed.

Lemma afterBackTwice_reachable :
  run sampleBusinessTypes sampleBank backTwice (mount ∅ ∅) = Some afterBackTwice.
Proof. vm_compute. reflexivity. Qed.

(** The scenario of the specification: answers 2, 4, 1 on
    freelancer/startup persist the answers [[2,4,1]] and the score 7. *)
Example scenario_persists :
  localStorage afterScenario !! "focusFoundersQuizAnswers" = Some "[2,4,1]"
  ∧ localStorage afterScenario !! "focusFoundersQuizScore" = Some "7"
  ∧ handOffs (log afterScenario) = 1%nat
  ∧ last (log afterScenario) = Some (RouterPush "/quiz/results").
Proof. vm_compute. done. Qed.

Lemma answering_all_persists_total_witness :
  ∃ w', run sampleBusinessTypes sampleBank (ClickOption <$> [2; 4; 1])
            atFirstQuestion = Some w'
        ∧ localStorage w' !! "focusFoundersQuizScore" = Some "7"
        ∧ Js.reduce_sum (answers (component w')) = Js.Int 7
        ∧ localStorage w' !! "focusFoundersQuizAnswers" = Some "[2,4,1]"
        ∧ "[2,4,1]" = "[2,4,1]"
        ∧ answers (component w') = [Js.number 2; Js.number 4; Js.number 1]
        ∧ 3%nat = 3%nat
        ∧ handedOff w' = true.
Proof.
  apply (answering_all_persists_total sampleBusinessTypes sampleBank
           atFirstQuestion [2; 4; 1]).
  - reflexivity.
  - reflexivity.
  - reflexivity.
  - repeat constructor; compute_done.
  - discriminate.
  - vm_compute. discriminate.
Defined.

(** The safe-integer bound of C1 is needed: the sum of 2^53 and 1 is
    rounded to 2^53 and stored as such, and 10^21 prints with an
    exponent. *)
Example unsafe_sums_round :
  Js.toString (Js.reduce_sum [Js.number (2 ^ 53); Js.number 1])
  = "9007199254740992"
  ∧ Js.toString (Js.Int (10 ^ 21)) = "1e+21"
  ∧ Js.stringify_array [Js.number (10 ^ 21)] = "[1e+21]".
Proof. vm_compute. done. Qed.

Lemma selectGrowthStage_resets_witness :
  localStorage (selectGrowthStage (component atGrowthStage) "startup"
                  atGrowthStage) !! "focusFoundersQuizPath"
  = Some freelancerStartupJson.
Proof.
  destruct (selectGrowthStage_resets atGrowthStage "startup")
    as (_ & _ & _ & _ & _ & _ & _ & _ & Hjson).
  rewrite Hjson; [reflexivity | | reflexivity].
  intros id [= <-]. reflexivity.
Defined.

Lemma afterAnsweredAgain_reachable :
  run sampleBusinessTypes sampleBank answeredAgain (mount ∅ ∅)
  = Some afterAnsweredAgain.
Proof. vm_compute. reflexivity. Qed.

(** C5, as stated, fails: the last question is still shown after the
    hand-off, and one more click on one of its options writes the score
    and hands off a second time. *)
Lemma score_written_twice_in_a_run :
  ¬ (∀ bts bank w,
       reachable bts bank w →
       (scoreWrites (log w) ≤ 1)%nat ∧ (handOffs (log w) ≤ 1)%nat).
Proof.
  intros H.
  destruct (H sampleBusinessTypes sampleBank afterAnsweredAgain) as [Hs _].
  { exists ∅, ∅, answeredAgain. exact afterAnsweredAgain_reachable. }
  vm_compute in Hs. lia.
Qed.

Example answered_again_effects :
  scoreWrites (log afterAnsweredAgain) = 2%nat
  ∧ handOffs (log afterAnsweredAgain) = 2%nat
  ∧ localStorage afterAnsweredAgain !! "focusFoundersQuizScore" = Some "9"
  ∧ localStorage afterAnsweredAgain !! "focusFoundersQuizAnswers"
    = Some "[2,4,3]".
Proof. vm_compute. done. Qed.

Lemma score_written_at_each_completion_witness :
  (∃ w', click sampleBusinessTypes sampleBank (ClickOption 4) afterFirstAnswer
         = Some w'
         ∧ log w' = log afterFirstAnswer
                    ++ [SetItem LocalStorage "focusFoundersQuizAnswers" "[2,4]"])
  ∧ scoreWrites (log afterScenario) = 1%nat
  ∧ handOffs (log afterScenario) = 1%nat
  ∧ (∃ l, log afterScenario
          = l ++ [SetItem LocalStorage "focusFoundersQuizAnswers" "[2,4,1]";
                  SetItem LocalStorage "focusFoundersQuizScore" "7";
                  RouterPush "/quiz/results"]).
Proof.
  destruct (score_written_at_each_completion sampleBusinessTypes sampleBank)
    as (Hanswer & _ & Hrun).
  split.
  - destruct (Hanswer afterFirstAnswer (sampleQuestion "Q2") 4)
      as (w' & Hc & Hmore & _); [reflexivity | reflexivity | compute_done |].
    exists w'. split; [exact Hc|].
    destruct Hmore as (Hlog & _); [vm_compute; lia|].
    rewrite Hlog. do 3 f_equal.
    injection Hc as <-. reflexivity.
  - assert (Hr : reachable sampleBusinessTypes sampleBank afterScenario).
    { exists ∅, ∅, scenario. exact afterScenario_reachable. }
    destruct (Hrun afterScenario Hr) as [Hbal _].
    split; [reflexivity|]. split; [rewrite <- Hbal; reflexivity|].
    exists (take 5 (log afterScenario)). vm_compute. reflexivity.
Defined.

Lemma index_in_range_witness :
  reachable sampleBusinessTypes sampleBank atFirstQuestion
  ∧ (currentQuestionIndex (component atFirstQuestion) < 3)%nat.
Proof.
  assert (Hr : reachable sampleBusinessTypes sampleBank atFirstQuestion).
  { exists ∅, ∅, toFirstQuestion. exact atFirstQuestion_reachable. }
  split; [exact Hr|].
  destruct (index_in_range sampleBusinessTypes sampleBank atFirstQuestion
              Hr eq_refl) as [Hpos _].
  assert (Hn : (0 < length (questionsOf sampleBank (component atFirstQuestion)))%nat)
    by (vm_compute; lia).
  destruct (Hpos Hn) as [Hlt _]. exact Hlt.
Defined.

(** A reachable state of an empty path: the render of the question screen
    throws. *)
Example empty_path_render_throws :
  ∃ w, run sampleBusinessTypes sampleBank
           [ClickStart; ClickBusinessType "agency"; ClickGrowthStage "startup"]
           (mount ∅ ∅) = Some w
       ∧ step (component w) = questions
       ∧ questionsOf sampleBank (component w) = []
       ∧ render sampleBusinessTypes sampleBank (component w) = None
       ∧ ∀ e, click sampleBusinessTypes sampleBank e w = None.
Proof.
  eexists. split; [vm_compute; reflexivity|].
  repeat split.
Qed.

(** C8, as stated, fails: after two answers and two steps back the list
    holds two points at question index 0. *)
Lemma recorded_points_longer_than_index_plus_one :
  ¬ (∀ bts bank w,
       reachable bts bank w →
       (length (answers (component w))
        ≤ currentQuestionIndex (component w) + 1)%nat).
Proof.
  intros H.
  specialize (H sampleBusinessTypes sampleBank afterBackTwice).
  assert (Hr : reachable sampleBusinessTypes sampleBank afterBackTwice).
  { exists ∅, ∅, backTwice. exact afterBackTwice_reachable. }
  specialize (H Hr). vm_compute in H. lia.
Qed.

Lemma index_never_exceeds_recorded_points_witness :
  reachable sampleBusinessTypes sampleBank afterBackTwice
  ∧ answersInv sampleBank afterBackTwice.
Proof.
  assert (Hr : reachable sampleBusinessTypes sampleBank afterBackTwice).
  { exists ∅, ∅, backTwice. exact afterBackTwice_reachable. }
  split; [exact Hr|].
  destruct (index_never_exceeds_recorded_points sampleBusinessTypes sampleBank)
    as (_ & _ & Hall).
  exact (Hall afterBackTwice Hr).
Defined.

(** C9, as stated, fails: the writes of a run go to [localStorage], not to
    the session-scoped area, and the score is still stored when the
    browsing session has ended. *)
Lemma quiz_data_outlives_session :
  ¬ (∀ bts bank w,
       reachable bts bank w →
       Forall (λ e, ∀ a, areaOf e = Some a → a = SessionStorage) (log w)
       ∧ localStorage (endSession w) !! "focusFoundersQuizScore" = None).
Proof.
  intros H.
  destruct (H sampleBusinessTypes sampleBank afterScenario) as [_ Hgone].
  { exists ∅, ∅, scenario. exact afterScenario_reachable. }
  vm_compute in Hgone. discriminate.
Qed.

Lemma storage_writes_target_localStorage_witness :
  run sampleBusinessTypes sampleBank scenario (mount ∅ ∅) = Some afterScenario
  ∧ Forall onLocalStorage (log afterScenario)
  ∧ localStorage (endSession afterScenario) !! "focusFoundersQuizScore"
    = Some "7".
Proof.
  split; [exact afterScenario_reachable|].
  destruct (storage_writes_target_localStorage sampleBusinessTypes sampleBank
              ∅ ∅ scenario afterScenario afterScenario_reachable)
    as (Hlog & _ & Hls & _).
  split; [exact Hlog|]. rewrite Hls. vm_compute. reflexivity.
Defined.

(** C6, as stated, fails: at question index 2 of 5 the progress value is
    60, in exact arithmetic and in binary64, not 0.6. *)
Lemma progress_is_not_the_fraction :
  ¬ (∀ bts bank c position total bar q,
       render bts bank c = Some (QuestionView position total bar q) →
       (bar == (inject_Z (Z.of_nat (currentQuestionIndex c)) + 1)
               / inject_Z (Z.of_nat (length (questionsOf bank c))))%Q).
Proof.
  intros H.
  specialize (H sampleBusinessTypes sampleBank thirdOfFive
                3%nat 5%nat (progress 2 5) (sampleQuestion "Q3") eq_refl).
  vm_compute in H. discriminate.
Qed.

Example progress_third_of_five :
  (progress 2 5 == 60)%Q
  ∧ ¬ (progress 2 5 == 6 # 10)%Q
  ∧ progress_binary64 2 5 = 60%float.
Proof.
  split; [reflexivity|]. split; [|reflexivity].
  intros H. vm_compute in H. discriminate.
Qed.

(** At index 10 of 20 the binary64 value is not the percentage 55: the
    quotient 11 / 20 is rounded before it is multiplied by 100, and the
    product is the next double above 55, which prints as
    55.00000000000001. *)
Example progress_binary64_values :
  progressOf sampleBank thirdOfFive = 60%float
  ∧ progress_binary64 10 20 = 0x1.b800000000001p+5%float
  ∧ progress_binary64 10 20 ≠ 55%float
  ∧ valueOf (progress_binary64 10 20)
    = Some (7740561859543041 # 140737488355328)%Q.
Proof.
  split; [reflexivity|]. split; [reflexivity|].
  split; [|vm_compute; reflexivity].
  intros H. apply (f_equal Prim2SF) in H. vm_compute in H. discriminate.
Qed.

Lemma progress_is_rounded_percentage_witness :
  progressOf sampleBank thirdOfFive = 60%float
  ∧ ∃ v : Q,
      valueOf (progressOf sampleBank thirdOfFive) = Some v
      ∧ (Qabs (v - 100 * (inject_Z 3 / inject_Z 5)) <= 1 # 2 ^ 45)%Q
      ∧ (0 < v)%Q
      ∧ (v <= 100)%Q
      ∧ ((v == 100)%Q ↔ 3%nat = 5%nat).
Proof.
  split; [reflexivity|].
  apply (progress_is_rounded_percentage sampleBank thirdOfFive).
  - vm_compute. lia.
  - vm_compute. lia.
Defined.

(** ** The further properties on the sample bank *)

Lemma atGrowthStage_reachable :
  run sampleBusinessTypes sampleBank [ClickStart; ClickBusinessType "freelancer"]
      (mount ∅ ∅) = Some atGrowthStage.
Proof. vm_compute. reflexivity. Qed.

Lemma afterFirstAnswer_reachable :
  run sampleBusinessTypes sampleBank firstAnswered (mount ∅ ∅)
  = Some afterFirstAnswer.
Proof. vm_compute. reflexivity. Qed.

Lemma afterScenarioUsed_reachable :
  run sampleBusinessTypes sampleBank scenario (mount usedStorage ∅)
  = Some afterScenarioUsed.
Proof. vm_compute. reflexivity. Qed.

Lemma getPosterFromVideo_unchanged_witness :
  getPosterFromVideo "https://cdn.example.com/clip.webm"
  = "https://cdn.example.com/clip.webm".
Proof. apply getPosterFromVideo_unchanged; reflexivity. Defined.

Lemma getPosterFromVideo_upload_witness :
  getPosterFromVideo
    "https://res.cloudinary.com/demo/video/upload/q_auto,f_auto/clip.mp4"
  = "https://res.cloudinary.com/demo/video/upload/so_0,f_jpg,q_auto/clip.jpg".
Proof.
  exact (getPosterFromVideo_upload "https://res.cloudinary.com/demo" "clip"
           eq_refl eq_refl eq_refl).
Defined.

(** The video of the four screens is local: no poster is requested; and
    only the first .mp4 of a URL is replaced. *)
Example getPosterFromVideo_examples :
  getPosterFromVideo "/videos/rvids/19.mp4" = ""
  ∧ getPosterFromVideo "https://cdn.example.com/a.mp4?next=b.mp4"
    = "https://cdn.example.com/a.jpg?next=b.mp4".
Proof. split; reflexivity. Qed.

Lemma click_follows_edge_witness :
  click sampleBusinessTypes sampleBank ClickStart (mount ∅ ∅)
  = Some (startQuiz (mount ∅ ∅))
  ∧ edge intro business_type = true.
Proof.
  split; [reflexivity|].
  exact (click_follows_edge sampleBusinessTypes sampleBank ClickStart
           (mount ∅ ∅) (startQuiz (mount ∅ ∅)) eq_refl).
Defined.

Lemma selections_come_from_catalogs_witness :
  reachable sampleBusinessTypes sampleBank atFirstQuestion
  ∧ ∃ b g, selectedBusinessType (component atFirstQuestion) = Some b
           ∧ selectedGrowthStage (component atFirstQuestion) = Some g
           ∧ questionsOf sampleBank (component atFirstQuestion)
             = sampleBank (Some b) (Some g).
Proof.
  assert (Hr : reachable sampleBusinessTypes sampleBank atFirstQuestion).
  { exists ∅, ∅, toFirstQuestion. exact atFirstQuestion_reachable. }
  split; [exact Hr|].
  destruct (selections_come_from_catalogs sampleBusinessTypes sampleBank
              atFirstQuestion Hr) as (_ & _ & _ & Hq).
  exact (Hq eq_refl).
Defined.

Lemma selectedType_found_witness :
  reachable sampleBusinessTypes sampleBank atGrowthStage
  ∧ ∃ bt, selectedType sampleBusinessTypes (component atGrowthStage) = Some bt
          ∧ bt ∈ sampleBusinessTypes
          ∧ selectedBusinessType (component atGrowthStage) = Some (bt_id bt).
Proof.
  assert (Hr : reachable sampleBusinessTypes sampleBank atGrowthStage).
  { exists ∅, ∅, [ClickStart; ClickBusinessType "freelancer"].
    exact atGrowthStage_reachable. }
  split; [exact Hr|].
  exact (selectedType_found sampleBusinessTypes sampleBank atGrowthStage
           Hr eq_refl).
Defined.

Lemma recorded_points_are_offered_witness :
  reachable sampleBusinessTypes sampleBank afterBackTwice
  ∧ ∃ ps, answers (component afterBackTwice) = Js.number <$> ps
          ∧ (step (component afterBackTwice) = questions →
             ∀ j p, ps !! j = Some p →
                    ∃ q, questionsOf sampleBank (component afterBackTwice) !! j
                         = Some q
                         ∧ p ∈ points <$> options q).
Proof.
  assert (Hr : reachable sampleBusinessTypes sampleBank afterBackTwice).
  { exists ∅, ∅, backTwice. exact afterBackTwice_reachable. }
  split; [exact Hr|].
  exact (recorded_points_are_offered sampleBusinessTypes sampleBank
           afterBackTwice Hr).
Defined.

Lemma storage_mirrors_component_witness :
  reachable sampleBusinessTypes sampleBank afterBackTwice
  ∧ localStorage afterBackTwice !! "focusFoundersQuizPath"
    = Some freelancerStartupJson
  ∧ localStorage afterBackTwice !! "focusFoundersQuizAnswers" = Some "[2,4]"
  ∧ localStorage afterBackTwice !! "focusFoundersQuizScore" = None.
Proof.
  assert (Hr : reachable sampleBusinessTypes sampleBank afterBackTwice).
  { exists ∅, ∅, backTwice. exact afterBackTwice_reachable. }
  split; [exact Hr|].
  destruct (storage_mirrors_component sampleBusinessTypes sampleBank
              afterBackTwice Hr eq_refl) as (Hp & Ha & Hs).
  destruct Hp as (b & g & Hb & Hg & _ & Hjson).
  injection Hb as <-. injection Hg as <-.
  split; [exact (Hjson eq_refl)|].
  split; [exact Ha | exact (Hs eq_refl)].
Defined.

Lemma answered_again :
  click sampleBusinessTypes sampleBank (ClickOption 3) afterScenario
  = Some afterAnsweredAgain.
Proof. vm_compute. reflexivity. Qed.

Lemma afterAnsweredAgain_answers :
  answers (component afterAnsweredAgain) = Js.number <$> [2; 4; 3].
Proof. vm_compute. reflexivity. Qed.

Lemma number_inj (ps qs : list Z) :
  Js.number <$> ps = Js.number <$> qs → ps = qs.
Proof.
  revert qs. induction ps as [|p ps IH]; intros [|q qs] H; try done.
  injection H as -> H. f_equal. by apply IH.
Qed.

Lemma sampleBank_points (c : Component) (q : Question) (o : QuizOption) :
  q ∈ questionsOf sampleBank c → o ∈ options q → (1 ≤ points o ≤ 4)%Z.
Proof.
  intros Hq Ho.
  assert (Hopts : options q = sampleOptions).
  { unfold questionsOf, sampleBank in Hq.
    repeat case_match;
      repeat (apply elem_of_cons in Hq as [->|Hq]; [reflexivity|]);
      by apply elem_of_nil in Hq. }
  rewrite Hopts in Ho. unfold sampleOptions in Ho.
  repeat (apply elem_of_cons in Ho as [->|Ho]; [simpl; lia|]).
  by apply elem_of_nil in Ho.
Qed.

Lemma handOff_score_is_sum_of_final_points_witness :
  reachable sampleBusinessTypes sampleBank afterScenario
  ∧ handedOff afterScenario = true
  ∧ click sampleBusinessTypes sampleBank (ClickOption 3) afterScenario
    = Some afterAnsweredAgain
  ∧ answers (component afterAnsweredAgain)
    = [Js.number 2; Js.number 4; Js.number 3]
  ∧ localStorage afterAnsweredAgain !! "focusFoundersQuizScore" = Some "9"
  ∧ localStorage afterAnsweredAgain !! "focusFoundersQuizAnswers"
    = Some "[2,4,3]".
Proof.
  assert (Hr : reachable sampleBusinessTypes sampleBank afterScenario).
  { exists ∅, ∅, scenario. exact afterScenario_reachable. }
  split; [exact Hr|]. split; [reflexivity|].
  destruct (handOff_score_is_sum_of_final_points sampleBusinessTypes sampleBank
              afterScenario (sampleQuestion "Q3") 3 4)
    as (w' & ps & Hc & _ & Hps & _ & _ & Hsc & Han).
  - exact Hr.
  - reflexivity.
  - reflexivity.
  - reflexivity.
  - compute_done.
  - intros q o Hq Ho.
    pose proof (sampleBank_points (component afterScenario) q o Hq Ho). lia.
  - vm_compute. discriminate.
  - rewrite answered_again in Hc. injection Hc as <-.
    rewrite afterAnsweredAgain_answers in Hps.
    apply number_inj in Hps as <-.
    split; [exact answered_again|].
    split; [exact afterAnsweredAgain_answers|].
    split; [exact Hsc | exact Han].
Defined.

Lemma handOff_score_within_bounds_witness :
  ∃ score, localStorage afterAnsweredAgain !! "focusFoundersQuizScore"
           = Some (pretty score)
           ∧ (3 * 1 ≤ score)%Z ∧ (score ≤ 3 * 4)%Z.
Proof.
  destruct (handOff_score_within_bounds sampleBusinessTypes sampleBank
              afterScenario (sampleQuestion "Q3") 3 1 4)
    as (w' & score & Hc & Hsc & Hlo & Hhi).
  - exists ∅, ∅, scenario. exact afterScenario_reachable.
  - reflexivity.
  - reflexivity.
  - reflexivity.
  - compute_done.
  - intros q o. apply sampleBank_points.
  - vm_compute. discriminate.
  - rewrite answered_again in Hc. injection Hc as <-.
    exists score. split; [exact Hsc|]. split; [exact Hlo | exact Hhi].
Defined.

Lemma back_then_answer_overwrites_witness :
  ∃ w', run sampleBusinessTypes sampleBank [ClickPrevious; ClickOption 3]
            afterFirstAnswer = Some w'
        ∧ currentQuestionIndex (component w') = 1%nat
        ∧ answers (component w') = [Js.number 3].
Proof.
  destruct (back_then_answer_overwrites sampleBusinessTypes sampleBank
              afterFirstAnswer 0 (sampleQuestion "Q1") 3)
    as (w' & Hrun & _ & Hi & Ha & _).
  - exists ∅, ∅, firstAnswered. exact afterFirstAnswer_reachable.
  - reflexivity.
  - reflexivity.
  - reflexivity.
  - reflexivity.
  - compute_done.
  - exists w'. split; [exact Hrun|]. split; [exact Hi | exact Ha].
Defined.

Lemma progress_within_bounds_witness :
  (1 ≤ 3 ≤ 5)%nat ∧ (0 < progress 2 5)%Q ∧ (progress 2 5 <= 100)%Q.
Proof.
  destruct (progress_within_bounds sampleBusinessTypes sampleBank thirdOfFive
              3%nat 5%nat (progress 2 5) (sampleQuestion "Q3") eq_refl)
    as (Hpos & Hlo & Hhi & _).
  split; [exact Hpos|]. split; [exact Hlo | exact Hhi].
Defined.

Lemma run_ignores_stored_data_witness :
  ∃ w', run sampleBusinessTypes sampleBank scenario (mount usedStorage ∅)
        = Some w'
        ∧ component w' = component afterScenario
        ∧ log w' = log afterScenario.
Proof.
  exact (run_ignores_stored_data sampleBusinessTypes sampleBank
           ∅ ∅ usedStorage ∅ scenario afterScenario afterScenario_reachable).
Defined.

Lemma run_keeps_other_keys_witness :
  localStorage afterScenarioUsed !! "theme" = Some "dark".
Proof.
  rewrite (run_keeps_other_keys sampleBusinessTypes sampleBank
             usedStorage ∅ scenario afterScenarioUsed "theme"
             afterScenarioUsed_reachable).
  - reflexivity.
  - compute_done.
Defined.

Lemma run_to_completion_witness :
  ∃ w, run sampleBusinessTypes sampleBank
           ([ClickStart; ClickBusinessType "freelancer"; ClickGrowthStage "growing"]
            ++ (ClickOption <$> [1; 2; 3; 4; 4]))
           (mount usedStorage ∅) = Some w
       ∧ handedOff w = true
       ∧ localStorage w !! "focusFoundersQuizScore" = Some "14"
       ∧ localStorage w !! "focusFoundersQuizAnswers" = Some "[1,2,3,4,4]"
       ∧ localStorage w !! "focusFoundersQuizPath" = Some freelancerGrowingJson
       ∧ sessionStorage w = ∅.
Proof.
  destruct (run_to_completion sampleBusinessTypes sampleBank usedStorage ∅
              "freelancer" "growing" [1; 2; 3; 4; 4])
    as (w & Hrun & Hoff & Hsc & Han & _ & Hjson & Hss).
  - compute_done.
  - compute_done.
  - repeat constructor; compute_done.
  - discriminate.
  - vm_compute. discriminate.
  - exists w. split; [exact Hrun|]. split; [exact Hoff|].
    split; [exact Hsc|]. split; [exact Han|].
    split; [exact (Hjson eq_refl) | exact Hss].
Defined.

Lemma previous_all_the_way_witness :
  ∃ w', run sampleBusinessTypes sampleBank [ClickPrevious; ClickPrevious]
            afterFirstAnswer = Some w'
        ∧ step (component w') = growth_stage
        ∧ answers (component w') = [Js.number 2].
Proof.
  destruct (previous_all_the_way sampleBusinessTypes sampleBank 1
              afterFirstAnswer eq_refl eq_refl eq_refl)
    as (w' & Hrun & Hs & _ & Ha & _).
  - vm_compute. lia.
  - exists w'. split; [exact Hrun|]. split; [exact Hs | exact Ha].
Defined.
